(** * Vinyl backend: a shallow embedding of [server.js]

    The development follows the layout of the source file: token management,
    marketplace map, cache memory, vinyl filtering, normalizer, search wrapper
    and the route handlers [/vinyl-trending], [/recommend], [/price-history]
    and [/chart-data].

    Modelling conventions.
    - A JavaScript property that may be missing is a [field]: [Undefined],
      [Null] or a value.  Upstream JSON is typed after the marketplace's
      contract (titles, brands, prices and timestamps arrive as strings).
    - Strings are sequences of ASCII code units; [toLowerCase] and the
      white-space class of [trim] and [/\s+/] are the ASCII parts of the
      ECMAScript definitions.
    - A JavaScript number is a [number]: [NaN], the two infinities, or a
      finite value.  Finite values are exact rationals: the rounding and the
      overflow of binary64 are not modelled, and zero is unsigned.  The
      propagation rules of [NaN] and of the infinities are the IEEE ones.
    - Effects (clock, network, [Math.random], the process-wide cache and
      credential) are threaded through a state-and-exception monad [M]; the
      outside world is an [env] of oracles indexed by a logical step. *)

From Stdlib Require Import ZArith QArith Qround Qcanon Lqa String Ascii List Bool Lia.
From Stdlib Require Import Sorting.Permutation Sorting.Sorted.
From stdpp Require Import gmap strings list.

Local Open Scope string_scope.
Local Open Scope list_scope.

(** ** JavaScript values *)

Inductive field (A : Type) : Type :=
| Undefined
| Null
| Val (a : A).
Arguments Undefined {A}.
Arguments Null {A}.
Arguments Val {A} a.

#[global] Instance field_eq_dec {A} `{EqDecision A} : EqDecision (field A).
Proof. solve_decision. Defined.

(** [ToBoolean] on the values a field can hold. *)
Class Truthy (A : Type) := truthy : A -> bool.

#[global] Instance string_truthy : Truthy string :=
  fun s => match s with EmptyString => false | String _ _ => true end.

Definition is_truthy {A} `{Truthy A} (x : field A) : bool :=
  match x with
  | Val a => truthy a
  | _ => false
  end.

(** [x || y] *)
Definition or_else {A} `{Truthy A} (x y : field A) : field A :=
  if is_truthy x then x else y.

(** [x?.p] for a property [p] read off an object held in a field. *)
Definition opt_chain {A B} (x : field A) (p : A -> field B) : field B :=
  match x with
  | Val a => p a
  | _ => Undefined
  end.

(** [xs?.[0]] *)
Definition opt_head {A} (xs : field (list A)) : field A :=
  match xs with
  | Val (a :: _) => Val a
  | _ => Undefined
  end.

(** ** Strings *)

Module Str.

Definition is_upper (c : ascii) : bool :=
  let n := N_of_ascii c in ((65 <=? n) && (n <=? 90))%N.

Definition lower_char (c : ascii) : ascii :=
  if is_upper c then ascii_of_N (N_of_ascii c + 32) else c.

(** [s.toLowerCase()] *)
Fixpoint toLowerCase (s : string) : string :=
  match s with
  | EmptyString => EmptyString
  | String c s' => String (lower_char c) (toLowerCase s')
  end.

(** [s.startsWith(w)] *)
Fixpoint startsWith (s w : string) : bool :=
  match w, s with
  | EmptyString, _ => true
  | String _ _, EmptyString => false
  | String a w', String b s' => if ascii_dec a b then startsWith s' w' else false
  end.

(** [s.includes(w)] *)
Fixpoint includes (s w : string) : bool :=
  startsWith s w ||
  match s with
  | EmptyString => false
  | String _ s' => includes s' w
  end.

(** White space of [trim] and of the regular expression class [\s]. *)
Definition is_space (c : ascii) : bool :=
  let n := N_of_ascii c in (((9 <=? n) && (n <=? 13)) || (n =? 32))%N.

Fixpoint trimStart (s : string) : string :=
  match s with
  | EmptyString => EmptyString
  | String c s' => if is_space c then trimStart s' else s
  end.

Fixpoint trimEnd (s : string) : string :=
  match s with
  | EmptyString => EmptyString
  | String c s' =>
      match trimEnd s' with
      | EmptyString => if is_space c then EmptyString else String c EmptyString
      | t => String c t
      end
  end.

(** [s.trim()] *)
Definition trim (s : string) : string := trimEnd (trimStart s).

(** [s.split("-")[0]]: the text before the first hyphen, the whole string
    when it has none. *)
Fixpoint beforeHyphen (s : string) : string :=
  match s with
  | EmptyString => EmptyString
  | String c s' =>
      if ascii_dec c "-" then EmptyString else String c (beforeHyphen s')
  end.

(** [s.split(/\s+/)]: the pieces between maximal runs of white space; a
    leading or a trailing run leaves an empty piece. *)
Fixpoint splitSpaces (s : string) : list string :=
  match s with
  | EmptyString => [EmptyString]
  | String c s' =>
      if is_space c then
        match s' with
        | EmptyString => [EmptyString; EmptyString]
        | String c' _ =>
            if is_space c' then splitSpaces s'
            else EmptyString :: splitSpaces s'
        end
      else
        match splitSpaces s' with
        | tok :: rest => String c tok :: rest
        | [] => [String c EmptyString]
        end
  end.

(** [ws.includes(w)] on an array of strings. *)
Definition mem (w : string) (ws : list string) : bool :=
  existsb (String.eqb w) ws.

(** [w] occurs in [s] as a run of consecutive characters. *)
Definition substring_of (w s : string) : Prop :=
  exists pre post, s = pre +:+ w +:+ post.

End Str.

(** ** Upstream item records (Browse API item summary) *)

Record Price := { value : field string }.
Record Image := { imageUrl : field string }.

#[global] Instance Price_truthy : Truthy Price := fun _ => true.
#[global] Instance Image_truthy : Truthy Image := fun _ => true.
#[global] Instance list_truthy {A} : Truthy (list A) := fun _ => true.

Record RawItem := {
  itemId : field string;
  title : field string;
  brand : field string;
  price : field Price;
  thumbnailImages : field (list Image);
  image : field Image;
  itemWebUrl : field string;
  condition : field string;
}.

(** An item summary with every property missing, and one with a title only. *)
Definition bareItem : RawItem :=
  {| itemId := Undefined; title := Undefined; brand := Undefined;
     price := Undefined; thumbnailImages := Undefined; image := Undefined;
     itemWebUrl := Undefined; condition := Undefined |}.

Definition titled (t : string) : RawItem :=
  {| itemId := Undefined; title := Val t; brand := Undefined;
     price := Undefined; thumbnailImages := Undefined; image := Undefined;
     itemWebUrl := Undefined; condition := Undefined |}.

(** ** Vinyl filtering *)

Definition BLOCK_WORDS : list string :=
  [ "poster"; "print"; "tshirt"; "shirt"; "hoodie"; "jacket"; "sticker";
    "figure"; "funko"; "toy"; "magnet"; "patch"; "keychain";
    "canvas"; "digital"; "template"; "pdf"; "ebook"; "bundle";
    "frame"; "painting"; "lamp"; "furniture"; "case"; "phone"; "iphone" ].

Definition isVinyl (item : RawItem) : bool :=
  if negb (is_truthy (title item)) then false
  else
    match title item with
    | Val s =>
        let t := Str.toLowerCase s in
        if existsb (fun w => Str.includes t w) BLOCK_WORDS then false
        else
          Str.includes t "vinyl" ||
          Str.includes t "lp" ||
          Str.includes t "record" ||
          Str.includes t "album" ||
          Str.includes t "cassette" ||
          Str.includes t "tape" ||
          Str.includes t "cd" ||
          Str.includes t "compact disc" ||
          Str.includes t "limited edition" ||
          Str.includes t "first press" ||
          Str.includes t "remaster"
    | _ => false
    end.

(** The keywords of the disjunction in [isVinyl], as a list. *)
Definition ALLOW_WORDS : list string :=
  [ "vinyl"; "lp"; "record"; "album"; "cassette"; "tape"; "cd";
    "compact disc"; "limited edition"; "first press"; "remaster" ].

(** The lower-cased title [t] contains a keyword of the block list, of the
    allow list. *)
Definition has_block_word (t : string) : Prop :=
  exists w, In w BLOCK_WORDS /\ Str.substring_of w t.

Definition has_allow_word (t : string) : Prop :=
  exists w, In w ALLOW_WORDS /\ Str.substring_of w t.

(** [w] is one of the white-space separated words of [t]. *)
Definition whole_word (w t : string) : Prop := In w (Str.splitSpaces t).

(** ** Normalizer *)

Record CanonicalItem := {
  c_itemId : field string;
  c_title : field string;
  c_artist : field string;
  c_price : field Price;
  c_image : field string;
  c_url : field string;
  c_condition : field string;
}.

(** [item.title?.split("-")[0]?.trim()] *)
Definition titleArtist (item : RawItem) : field string :=
  match title item with
  | Val s => Val (Str.trim (Str.beforeHyphen s))
  | _ => Undefined
  end.

Definition normalizeVinyl (item : RawItem) : CanonicalItem :=
  {| c_itemId := itemId item;
     c_title := title item;
     c_artist := or_else (or_else (brand item) (titleArtist item)) Null;
     c_price := or_else (price item) Null;
     c_image :=
       or_else
         (or_else (opt_chain (opt_head (thumbnailImages item)) imageUrl)
                  (opt_chain (image item) imageUrl))
         Null;
     c_url := itemWebUrl item;
     c_condition := or_else (condition item) Null |}.

(** ** Numbers *)

Inductive number : Type :=
| NaN
| PosInf
| NegInf
| Fin (q : Qc).

Module Num.

Local Open Scope Qc_scope.

Definition of_Z (z : Z) : number := Fin (Qc_of_Z z).
Definition of_nat (n : nat) : number := of_Z (Z.of_nat n).

Definition Qc_leb (a b : Qc) : bool := Qle_bool a b.
Definition Qc_ltb (a b : Qc) : bool := negb (Qle_bool b a).
Definition Qc_is0 (a : Qc) : bool := Qeq_bool a 0.

Definition isNaN (x : number) : bool :=
  match x with NaN => true | _ => false end.

(** [Number.isFinite] *)
Definition isFinite (x : number) : bool :=
  match x with Fin _ => true | _ => false end.

(** [-x] *)
Definition neg (x : number) : number :=
  match x with
  | NaN => NaN
  | PosInf => NegInf
  | NegInf => PosInf
  | Fin q => Fin (- q)
  end.

(** [x + y] *)
Definition add (x y : number) : number :=
  match x, y with
  | NaN, _ | _, NaN => NaN
  | PosInf, NegInf | NegInf, PosInf => NaN
  | PosInf, _ | _, PosInf => PosInf
  | NegInf, _ | _, NegInf => NegInf
  | Fin a, Fin b => Fin (a + b)
  end.

(** [x - y] *)
Definition sub (x y : number) : number := add x (neg y).

(** An infinity multiplied or divided by a finite factor [a]. *)
Definition scale_inf (inf : number) (a : Qc) : number :=
  if Qc_ltb a 0 then neg inf else inf.

(** [x * y] *)
Definition mul (x y : number) : number :=
  match x, y with
  | NaN, _ | _, NaN => NaN
  | Fin a, Fin b => Fin (a * b)
  | Fin a, inf | inf, Fin a => if Qc_is0 a then NaN else scale_inf inf a
  | PosInf, PosInf | NegInf, NegInf => PosInf
  | PosInf, NegInf | NegInf, PosInf => NegInf
  end.

(** [x / y] *)
Definition div (x y : number) : number :=
  match x, y with
  | NaN, _ | _, NaN => NaN
  | Fin a, Fin b =>
      if Qc_is0 b then
        if Qc_is0 a then NaN else if Qc_ltb a 0 then NegInf else PosInf
      else Fin (a / b)
  | Fin _, _ => Fin 0
  | inf, Fin b => scale_inf inf b
  | _, _ => NaN
  end.

(** [x < y]; false as soon as an operand is [NaN]. *)
Definition ltb (x y : number) : bool :=
  match x, y with
  | NaN, _ | _, NaN => false
  | Fin a, Fin b => Qc_ltb a b
  | NegInf, NegInf | PosInf, _ | _, NegInf => false
  | NegInf, _ | _, PosInf => true
  end.

(** [x > y] *)
Definition gtb (x y : number) : bool := ltb y x.

(** [x >= y] *)
Definition geb (x y : number) : bool :=
  match x, y with
  | NaN, _ | _, NaN => false
  | _, _ => negb (ltb x y)
  end.

(** [Math.abs(x)] *)
Definition abs (x : number) : number :=
  match x with
  | NaN => NaN
  | PosInf | NegInf => PosInf
  | Fin q => Fin (if Qc_ltb q 0 then - q else q)
  end.

(** [Math.max(x, y)] *)
Definition max (x y : number) : number :=
  match x, y with
  | NaN, _ | _, NaN => NaN
  | _, _ => if ltb x y then y else x
  end.

(** [Math.min(x, y)] *)
Definition min (x y : number) : number :=
  match x, y with
  | NaN, _ | _, NaN => NaN
  | _, _ => if ltb y x then y else x
  end.

(** [Math.max(...xs)] and [Math.min(...xs)] *)
Definition max_list (xs : list number) : number := fold_left max xs NegInf.
Definition min_list (xs : list number) : number := fold_left min xs PosInf.

(** [xs.reduce((a, b) => a + b, 0)] *)
Definition sum (xs : list number) : number := fold_left add xs (of_Z 0).

(** [Number(x.toFixed(2))]: the nearest multiple of 1/100, the larger one
    in magnitude on a tie; magnitudes from 10^21 on are printed in full. *)
Definition toFixed2 (x : number) : number :=
  match x with
  | Fin q =>
      let a := if Qc_ltb q 0 then - q else q in
      if Qc_leb (Qc_of_Z (10 ^ 21)%Z) a then x
      else
        let n := Qfloor (a * Qc_of_Z 100 + Q2Qc (1 # 2)%Q) in
        let r := Qc_of_Z n / Qc_of_Z 100 in
        Fin (if Qc_ltb q 0 then - r else r)
  | _ => x
  end.

(** [ToIntegerOrInfinity] followed by the clamping of [slice]'s end index
    against a length. *)
Definition sliceEnd (x : number) (len : nat) : nat :=
  match x with
  | NaN | NegInf => 0%nat
  | PosInf => len
  | Fin q =>
      let k := if Qc_ltb q 0 then (- Qfloor (- q))%Z else Qfloor q in
      if (k <? 0)%Z then Z.to_nat (Z.max (Z.of_nat len + k) 0)
      else Nat.min (Z.to_nat k) len
  end.

(** [x <= y] holds, as JavaScript evaluates it. *)
Definition le (x y : number) : Prop := geb y x = true.

End Num.

Declare Scope num_scope.
Delimit Scope num_scope with num.
Infix "+" := Num.add : num_scope.
Infix "-" := Num.sub : num_scope.
Infix "*" := Num.mul : num_scope.
Infix "/" := Num.div : num_scope.

(** [xs.slice(0, n)] *)
Definition slice0 {A} (n : number) (xs : list A) : list A :=
  firstn (Num.sliceEnd n (length xs)) xs.

(** [xs.sort(cmp)]: a stable sort; [a] is moved behind [b] exactly when
    [cmp(a, b) > 0].  Every stable sort returns this list when [cmp] is a
    consistent comparator; otherwise (a comparison that gives [NaN]) the
    order is implementation-defined: this is one admissible outcome, not
    necessarily the one of a given engine. *)
Section Sort.
Context {A : Type} (cmp : A -> A -> number).

Fixpoint sort_insert (x : A) (s : list A) : list A :=
  match s with
  | [] => [x]
  | y :: s' =>
      if Num.gtb (cmp x y) (Num.of_Z 0) then y :: sort_insert x s'
      else x :: s
  end.

Fixpoint sort (l : list A) : list A :=
  match l with
  | [] => []
  | x :: l' => sort_insert x (sort l')
  end.

(** [a] may stand directly before [b]: the comparator does not ask to move
    [a] behind [b]. *)
Definition inOrder (a b : A) : Prop := Num.gtb (cmp a b) (Num.of_Z 0) = false.
End Sort.

(** First-seen-wins deduplication by a key, told directly: an element is
    kept when its key is not among the keys [seen] so far. *)
Section KeepFirst.
Context {K V : Type} `{EqDecision K} (key : V -> K).

Fixpoint keepFirst (seen : list K) (l : list V) : list V :=
  match l with
  | [] => []
  | x :: l' =>
      if bool_decide (key x ∈ seen) then keepFirst seen l'
      else x :: keepFirst (seen ++ [key x]) l'
  end.
End KeepFirst.

(** A [Map] filled with [if (!map.has(k)) map.set(k, v)] and read back with
    [[...map.values()]]: entries in insertion order. *)
Section InsertionMap.
Context {K V : Type} `{EqDecision K}.

Definition map_has (k : K) (m : list (K * V)) : bool :=
  existsb (fun kv => bool_decide (kv.1 = k)) m.

Definition map_set_if_new (m : list (K * V)) (k : K) (v : V) : list (K * V) :=
  if map_has k m then m else m ++ [(k, v)].

Definition map_values (m : list (K * V)) : list V := map snd m.
End InsertionMap.

(** ** Marketplace map *)

Module Market.

Definition upper_char (c : ascii) : ascii :=
  let n := N_of_ascii c in
  if ((97 <=? n) && (n <=? 122))%N then ascii_of_N (n - 32) else c.

(** [s.toUpperCase()] *)
Fixpoint toUpperCase (s : string) : string :=
  match s with
  | EmptyString => EmptyString
  | String c s' => String (upper_char c) (toUpperCase s')
  end.

Definition MARKET_MAP : list (string * string) :=
  [ ("US", "EBAY_US"); ("UK", "EBAY_GB"); ("GB", "EBAY_GB");
    ("CA", "EBAY_CA"); ("AU", "EBAY_AU"); ("DE", "EBAY_DE");
    ("FR", "EBAY_FR"); ("IT", "EBAY_IT"); ("ES", "EBAY_ES") ].

Fixpoint lookup (k : string) (m : list (string * string)) : field string :=
  match m with
  | [] => Undefined
  | (k', v) :: m' => if String.eqb k k' then Val v else lookup k m'
  end.

Definition resolveMarketplace (country : string) : string :=
  match or_else (lookup (toUpperCase country) MARKET_MAP) (Val "EBAY_US") with
  | Val m => m
  | _ => "EBAY_US"
  end.

End Market.

(** ** Cache memory *)

Record CacheEntry (V : Type) := { val : V; exp : number }.
Arguments val {V} _.
Arguments exp {V} _.

Section Cache.
Context {V : Type}.

(** [setCache(key, val, ttlMs)] run when [Date.now()] reads [now]. *)
Definition setCache (now : Z) (key : string) (v : V) (ttlMs : number)
    (cacheStore : gmap string (CacheEntry V)) : gmap string (CacheEntry V) :=
  <[ key := {| val := v; exp := (Num.of_Z now + ttlMs)%num |} ]> cacheStore.

(** [getCache(key)] run when [Date.now()] reads [now]: the returned value
    ([None] for [null]) and the store it leaves behind. *)
Definition getCache (now : Z) (key : string)
    (cacheStore : gmap string (CacheEntry V)) : option V * gmap string (CacheEntry V) :=
  match cacheStore !! key with
  | None => (None, cacheStore)
  | Some c =>
      if Num.gtb (Num.of_Z now) (exp c) then (None, delete key cacheStore)
      else (Some (val c), cacheStore)
  end.
End Cache.

(** ** Upstream payloads *)

Record TokenJson := { access_token : field string; expires_in : field number }.

Record SearchJson := { itemSummaries : field (list RawItem) }.

(** Finding API: every property is wrapped in an array. *)
Record Amount := { __value__ : field string }.
Record SellingStatus := {
  sellingState : field (list string);
  currentPrice : field (list Amount);
}.
Record ListingInfo := { endTime : field (list string) }.
Record ConditionInfo := { conditionDisplayName : field (list string) }.
Record FindingItem := {
  f_title : field (list string);
  sellingStatus : field (list SellingStatus);
  viewItemURL : field (list string);
  galleryURL : field (list string);
  f_condition : field (list ConditionInfo);
  listingInfo : field (list ListingInfo);
}.
Record SearchResult := { item : field (list FindingItem) }.
Record CompletedItems := { searchResult : field (list SearchResult) }.
Record FindingJson := { findCompletedItemsResponse : field (list CompletedItems) }.

(** A [Date] object: its time value, or Invalid Date. *)
Inductive Date : Type :=
| InvalidDate
| DateAt (ms : Z).

(** ** Exceptions, environment and the handler monad *)

Inductive error : Type :=
| FetchFailed (msg : string)
| JsonFailed (msg : string)
| CannotRefreshToken (data : TokenJson)
| EbayError (json : SearchJson)
| TypeError (msg : string)
| RangeError (msg : string).

Inductive outcome (A : Type) : Type :=
| Ok (a : A)
| Throw (e : error).
Arguments Ok {A} a.
Arguments Throw {A} e.

(** What [fetch] resolves to: [resp.ok] and the outcome of [resp.json()]. *)
Record Http (A : Type) := { ok : bool; json : outcome A }.
Arguments ok {A} _.
Arguments json {A} _.

(** Built-in conversions of the runtime. *)
Record runtime := {
  StringToNumber : string -> number;
  DateParse : string -> Date;
}.

(** The outside world, one answer per logical step of the process. *)
Record env := {
  clock : nat -> Z;
  random : nat -> number;
  fetch_token : nat -> outcome (Http TokenJson);
  fetch_search : nat -> string -> string -> string -> outcome (Http SearchJson);
  fetch_item : nat -> string -> string -> outcome (Http RawItem);
  fetch_completed : nat -> string -> string -> outcome (Http FindingJson);
}.

(** Process-wide mutable state. *)
Record world := {
  cacheStore : gmap string (CacheEntry SearchJson);
  accessToken : field string;
  accessTokenExpiresAt : number;
  step : nat;
}.

Definition M (A : Type) : Type := world -> outcome A * world.

Definition ret {A} (a : A) : M A := fun w => (Ok a, w).
Definition throw {A} (e : error) : M A := fun w => (Throw e, w).
Definition bind {A B} (m : M A) (k : A -> M B) : M B :=
  fun w =>
    match m w with
    | (Ok a, w') => k a w'
    | (Throw e, w') => (Throw e, w')
    end.
(** [try { m } catch (e) { h(e) }] *)
Definition try_catch {A} (m : M A) (h : error -> M A) : M A :=
  fun w =>
    match m w with
    | (Ok a, w') => (Ok a, w')
    | (Throw e, w') => h e w'
    end.
Definition lift {A} (o : outcome A) : M A := fun w => (o, w).

Notation "'let!' x ':=' m 'in' k" := (bind m (fun x => k))
  (at level 10, x name, m at level 200, k at level 200).
Notation "'let!' ' p ':=' m 'in' k" := (bind m (fun p => k))
  (at level 10, p strict pattern, m at level 200, k at level 200).

Definition tick (w : world) : world :=
  {| cacheStore := cacheStore w;
     accessToken := accessToken w;
     accessTokenExpiresAt := accessTokenExpiresAt w;
     step := S (step w) |}.

Definition getWorld : M world := fun w => (Ok w, w).

Definition setToken (tok : field string) (expiresAt : number) : M unit :=
  fun w =>
    (Ok tt,
     {| cacheStore := cacheStore w;
        accessToken := tok;
        accessTokenExpiresAt := expiresAt;
        step := step w |}).

Definition setStore (st : gmap string (CacheEntry SearchJson)) : M unit :=
  fun w =>
    (Ok tt,
     {| cacheStore := st;
        accessToken := accessToken w;
        accessTokenExpiresAt := accessTokenExpiresAt w;
        step := step w |}).

Definition ask {A} (oracle : nat -> A) : M A :=
  fun w => (Ok (oracle (step w)), tick w).
Definition await {A} (oracle : nat -> outcome A) : M A :=
  fun w => (oracle (step w), tick w).

(** ** Replies of the route handlers *)

Inductive reply (A : Type) : Type :=
| Send (body : A)                 (* res.json(body) *)
| Status400 (msg : string)        (* res.status(400).json({ error: msg }) *)
| Status500 (e : error).          (* res.status(500).json({ error: e.message }) *)
Arguments Send {A} body.
Arguments Status400 {A} msg.
Arguments Status500 {A} e.

Record ScoredItem := { s_item : CanonicalItem; score : number }.

Record TrendingBody := {
  t_country : string;
  t_total : nat;
  t_items : list ScoredItem;
}.

Record Recommended := { r_item : CanonicalItem; recommend_score : number }.

Record Base := {
  b_id : field string;
  b_title : string;
  b_artist : string;
  b_price : number;
}.

Record RecommendBody := {
  base : Base;
  r_total_items : nat;
  r_items : list Recommended;
}.

Record SoldItem := {
  si_title : string;
  si_price : number;
  si_url : string;
  si_image : field string;
  si_condition : string;
  si_endDate : field string;
}.

Record PriceStats := {
  average_price : number;
  lowest_price : number;
  highest_price : number;
  median_price : number;
}.

(** [stats = None]: the four price keys are absent from the body. *)
Record PriceHistoryBody := {
  ph_query : string;
  total_sold : nat;
  ph_stats : option PriceStats;
  ph_items : list SoldItem;
}.

Record SoldRecord := { sr_price : number; sr_date : Date }.

Record Summary := {
  count : nat;
  average : number;
  lowest : number;
  highest : number;
}.

(** [None] is JSON [null]. *)
Record Chart := {
  d30 : option Summary;
  d60 : option Summary;
  d90 : option Summary;
}.

(** [total_sold_combined = None]: the key is absent from the body. *)
Record ChartBody := {
  ch_query : string;
  expanded_queries : list string;
  total_sold_combined : option nat;
  chart : Chart;
}.

#[global] Instance number_eq_dec : EqDecision number.
Proof. solve_decision. Defined.

(** ** Pure parts of the handlers *)

(** [x || ""] read as a string. *)
Definition or_empty (x : field string) : string :=
  match or_else x (Val "") with
  | Val s => s
  | _ => ""
  end.

(** [xs || []] read as an array. *)
Definition or_nil {A} (xs : field (list A)) : list A :=
  match xs with
  | Val l => l
  | _ => []
  end.

(** [date.valueOf()] *)
Definition dateValue (d : Date) : number :=
  match d with
  | InvalidDate => NaN
  | DateAt ms => Num.of_Z ms
  end.

(** The map callback's dedup key [date.toISOString() + "-" + price]: the
    pair it encodes, the encoding being one-to-one; [toISOString] throws on
    Invalid Date. *)
Definition soldKey (r : SoldRecord) : outcome (Z * number) :=
  match sr_date r with
  | DateAt ms => Ok (ms, sr_price r)
  | InvalidDate => Throw (RangeError "Invalid time value")
  end.

(** [combined.forEach(item => { key = ...; if (!map.has(key)) map.set(key, item) })] *)
Fixpoint dedupSold (l : list SoldRecord) (m : list ((Z * number) * SoldRecord))
    : outcome (list ((Z * number) * SoldRecord)) :=
  match l with
  | [] => Ok m
  | r :: l' =>
      match soldKey r with
      | Ok k => dedupSold l' (map_set_if_new m k r)
      | Throw e => Throw e
      end
  end.

(** [const makeSummary = prices => ...] *)
Definition makeSummary (prices : list number) : option Summary :=
  match prices with
  | [] => None
  | _ =>
      let avg := (Num.sum prices / Num.of_nat (length prices))%num in
      Some {| count := length prices;
              average := Num.toFixed2 avg;
              lowest := Num.min_list prices;
              highest := Num.max_list prices |}
  end.

(** [daysAgo(d)] for [now = new Date()] with time value [now]. *)
Definition daysAgo (now : Z) (d : Z) : Date := DateAt (now - d * 86400000).

(** [rangeData(days)] *)
Definition rangeData (now : Z) (combined : list SoldRecord) (days : Z) : list number :=
  map sr_price
    (List.filter (fun i => Num.geb (dateValue (sr_date i)) (dateValue (daysAgo now days)))
                 combined).

Definition makeChart (now : Z) (combined : list SoldRecord) : Chart :=
  {| d30 := makeSummary (rangeData now combined 30);
     d60 := makeSummary (rangeData now combined 60);
     d90 := makeSummary (rangeData now combined 90) |}.




(** Newest first: [combined.sort((a, b) => b.date - a.date)]. *)
Definition sortNewestFirst (combined : list SoldRecord) : list SoldRecord :=
  sort (fun a b => (dateValue (sr_date b) - dateValue (sr_date a))%num) combined.

(** The query variants of [/chart-data]. *)
Module Expand.

(** [q.replace(/\s+/g, "")] *)
Fixpoint removeSpaces (s : string) : string :=
  match s with
  | EmptyString => EmptyString
  | String c s' => if Str.is_space c then removeSpaces s' else String c (removeSpaces s')
  end.

(** [q.replace(a, b)] for one-character strings: the first occurrence only. *)
Fixpoint replaceFirst (a b : ascii) (s : string) : string :=
  match s with
  | EmptyString => EmptyString
  | String c s' => if ascii_dec c a then String b s' else String c (replaceFirst a b s')
  end.

(** [q.split(" ")] *)
Fixpoint splitOnSpace (s : string) : list string :=
  match s with
  | EmptyString => [EmptyString]
  | String c s' =>
      if ascii_dec c " " then EmptyString :: splitOnSpace s'
      else
        match splitOnSpace s' with
        | tok :: rest => String c tok :: rest
        | [] => [String c EmptyString]
        end
  end.

(** [ws.join(" ")] *)
Fixpoint joinSpace (ws : list string) : string :=
  match ws with
  | [] => EmptyString
  | [w] => w
  | w :: ws' => w +:+ " " +:+ joinSpace ws'
  end.

Definition expansions (q : string) : list string :=
  [ q;
    removeSpaces q;
    replaceFirst " " "-" q;
    replaceFirst "-" " " q;
    joinSpace (rev (splitOnSpace q));
    q +:+ " vinyl";
    q +:+ " lp";
    q +:+ " record";
    q +:+ " cassette" ].

(** [[...new Set(xs)]] *)
Definition uniq (xs : list string) : list string :=
  map_values (fold_left (fun m x => map_set_if_new m x x) xs []).

End Expand.

(** The price series of [/price-history] and its statistics. *)
Definition sortAscending (prices : list number) : list number :=
  sort (fun a b => (a - b)%num) prices.

(** [prices[i]]; an index past the end reads [undefined], [NaN] once used
    as a number. *)
Definition at_index (prices : list number) (i : nat) : number := nth i prices NaN.

(** [median] of an ascending series, as the handler computes it. *)
Definition medianOf (prices : list number) : number :=
  let n := length prices in
  if (n mod 2 =? 0)%nat then
    ((at_index prices (n / 2 - 1) + at_index prices (n / 2)) / Num.of_Z 2)%num
  else at_index prices (n / 2).

Definition priceStats (sold : list number) : PriceStats :=
  let prices := sortAscending sold in
  let avg := (Num.sum prices / Num.of_nat (length prices))%num in
  {| average_price := Num.toFixed2 avg;
     lowest_price := at_index prices 0;
     highest_price := at_index prices (length prices - 1);
     median_price := medianOf prices |}.

(** ** The server *)

Section Server.
Context (rt : runtime) (E : env).

(** [Number(p?.value || 0)] *)
Definition priceNumber (p : field Price) : number :=
  match opt_chain p value with
  | Val s => if truthy s then StringToNumber rt s else Num.of_Z 0
  | _ => Num.of_Z 0
  end.

(** [Number(x?.[0]?.__value__ || 0)] *)
Definition amountNumber (a : field (list Amount)) : number :=
  match opt_chain (opt_head a) __value__ with
  | Val s => if truthy s then StringToNumber rt s else Num.of_Z 0
  | _ => Num.of_Z 0
  end.

(** [new Date(x)] for a string or a missing property. *)
Definition newDate (x : field string) : Date :=
  match x with
  | Undefined => InvalidDate
  | Null => DateAt 0
  | Val s => DateParse rt s
  end.

(** *** Token management *)

Definition toNumber (x : field number) : number :=
  match x with
  | Undefined => NaN
  | Null => Num.of_Z 0
  | Val n => n
  end.

Definition getAccessToken : M string :=
  let! now := ask (clock E) in
  let! w := getWorld in
  if is_truthy (accessToken w) && Num.ltb (Num.of_Z now) (accessTokenExpiresAt w)
  then ret (or_empty (accessToken w))
  else
    let! resp := await (fetch_token E) in
    let! data := lift (json resp) in
    if negb (ok resp) || negb (is_truthy (access_token data))
    then throw (CannotRefreshToken data)
    else
      let! _ := setToken (access_token data)
                  (Num.of_Z now + (toNumber (expires_in data) - Num.of_Z 60) * Num.of_Z 1000)%num in
      ret (or_empty (access_token data)).

(** *** Search wrapper *)

(** [getCache(cacheKey)] against the process-wide store; the clock is read
    only when the key is present. *)
Definition getCacheM (key : string) : M (option SearchJson) :=
  let! w := getWorld in
  match cacheStore w !! key with
  | None => ret None
  | Some _ =>
      let! now := ask (clock E) in
      let '(r, st) := getCache now key (cacheStore w) in
      let! _ := setStore st in
      ret r
  end.

Definition setCacheM (key : string) (v : SearchJson) (ttlMs : number) : M unit :=
  let! now := ask (clock E) in
  let! w := getWorld in
  setStore (setCache now key v ttlMs (cacheStore w)).

Definition ebaySearch (q country extra : string) : M SearchJson :=
  let marketplace := Market.resolveMarketplace country in
  let cacheKey := "V|" +:+ marketplace +:+ "|" +:+ q +:+ "|" +:+ extra in
  let! cached := getCacheM cacheKey in
  match cached with
  | Some c => ret c
  | None =>
      let! token := getAccessToken in
      let! resp := await (fun n => fetch_search E n marketplace q extra) in
      let! js := lift (json resp) in
      if negb (ok resp) then throw (EbayError js)
      else
        let! _ := setCacheM cacheKey js (Num.of_Z (5 * 60 * 1000)) in
        ret js
  end.

(** [xs.map(f)] for a callback with effects, left to right. *)
Fixpoint mapM {A B} (f : A -> M B) (xs : list A) : M (list B) :=
  match xs with
  | [] => ret []
  | x :: xs' =>
      let! y := f x in
      let! ys := mapM f xs' in
      ret (y :: ys)
  end.

(** [Number(limit)] for a query parameter with a numeric default. *)
Definition limitNumber (limit : option string) (dflt : Z) : number :=
  match limit with
  | None => Num.of_Z dflt
  | Some s => StringToNumber rt s
  end.

(** *** 1) /vinyl-trending *)

Definition trending_queries : list string :=
  [ "pink floyd vinyl"; "queen vinyl"; "nirvana vinyl"; "metallica vinyl";
    "the beatles vinyl"; "taylor swift vinyl"; "radiohead vinyl";
    "fleetwood mac vinyl"; "daft punk vinyl"; "jazz vinyl"; "hip hop vinyl";
    "rare cassette tape"; "vintage cassette"; "limited edition lp" ].

(** The body of [for (const q of queries) { try { ... } catch (err) { ... } }]
    for one query. *)
Definition trending_step (country : string) (found : list RawItem) (q : string)
    : M (list RawItem) :=
  try_catch
    (let! js := ebaySearch q country "&limit=50&sort=BEST_MATCH" in
     ret (found ++ List.filter isVinyl (or_nil (itemSummaries js))))
    (fun err => ret found).

Fixpoint trending_loop (country : string) (queries : list string)
    (found : list RawItem) : M (list RawItem) :=
  match queries with
  | [] => ret found
  | q :: queries' =>
      let! found' := trending_step country found q in
      trending_loop country queries' found'
  end.

(** [for (const it of found) if (!map.has(it.title)) map.set(it.title, it)] *)
Definition dedupByTitle (found : list RawItem) : list RawItem :=
  map_values (fold_left (fun m it => map_set_if_new m (title it) it) found []).

Definition enrich (it : RawItem) : M ScoredItem :=
  let! r := ask (random E) in
  ret {| s_item := normalizeVinyl it;
         score := (priceNumber (price it) + r * Num.of_Z 10)%num |}.

Definition vinyl_trending (country limit : option string) : M (reply TrendingBody) :=
  try_catch
    (let country := default "US" country in
     let! found := trending_loop country trending_queries [] in
     let! enriched := mapM enrich (dedupByTitle found) in
     let enriched := sort (fun a b => (score b - score a)%num) enriched in
     ret (Send {| t_country := country;
                  t_total := length enriched;
                  t_items := slice0 (limitNumber limit 40) enriched |}))
    (fun e => ret (Status500 e)).
(** *** 4) /recommend *)

(** [baseTitle.toLowerCase().split(/\s+/).filter(w => w.length > 2)] *)
Definition baseWordsOf (baseTitle : string) : list string :=
  List.filter (fun w => (2 <? String.length w)%nat)
              (Str.splitSpaces (Str.toLowerCase baseTitle)).

(** The three deterministic terms the callback adds to [score]. *)
Definition artistTerm (baseArtist : string) (n : CanonicalItem) : number :=
  match c_artist n with
  | Val a =>
      if truthy baseArtist && truthy a
         && String.eqb (Str.toLowerCase a) (Str.toLowerCase baseArtist)
      then Num.of_Z 20 else Num.of_Z 0
  | _ => Num.of_Z 0
  end.

Definition priceTerm (basePrice priceVal : number) : number :=
  let diff := Num.abs (priceVal - basePrice)%num in
  Num.max (Num.of_Z 0) (Num.of_Z 15 - (diff / basePrice) * Num.of_Z 20)%num.

Definition overlapOf (baseWords words : list string) : nat :=
  length (List.filter (fun w => Str.mem w words) baseWords).

(** [score] after the last [score += ...], [rnd] being [Math.random()]. *)
Definition rawScore (baseArtist : string) (basePrice : number)
    (baseWords : list string) (it : RawItem) (words : list string)
    (rnd : number) : number :=
  let n := normalizeVinyl it in
  let priceVal := priceNumber (price it) in
  let score := Num.of_Z 0 in
  let score := (score + artistTerm baseArtist n)%num in
  let score := (score + priceTerm basePrice priceVal)%num in
  let score := (score + Num.of_nat (overlapOf baseWords words) * Num.of_Z 2)%num in
  (score + rnd * Num.of_Z 3)%num.

(** The callback of [items.map(it => ...)]. *)
Definition scoreCandidate (baseArtist : string) (basePrice : number)
    (baseWords : list string) (it : RawItem) : M Recommended :=
  let n := normalizeVinyl it in
  let! words :=
    match c_title n with
    | Val t => ret (Str.splitSpaces (Str.toLowerCase t))
    | _ => throw (TypeError "Cannot read properties of undefined (reading 'toLowerCase')")
    end in
  let! rnd := ask (random E) in
  ret {| r_item := n;
         recommend_score :=
           Num.toFixed2 (rawScore baseArtist basePrice baseWords it words rnd) |}.

(** [i.itemId !== id] *)
Definition otherThan (id : string) (i : RawItem) : bool :=
  negb (bool_decide (itemId i = Val id)).

(** The base item: [(baseTitle, baseArtist, basePrice)] and the query, as
    left by the [if (id) { ... }] block. *)
Definition loadBase (id : option string) (country q : string)
    : M (string * string * number * string) :=
  match id with
  | Some i =>
      if truthy i then
        let! token := getAccessToken in
        let marketplace := Market.resolveMarketplace country in
        let! detailResp := await (fun n => fetch_item E n marketplace i) in
        let! detailJson := lift (json detailResp) in
        if ok detailResp then
          let baseTitle := or_empty (title detailJson) in
          let baseArtist := or_empty (brand detailJson) in
          let basePrice := priceNumber (price detailJson) in
          ret (baseTitle, baseArtist, basePrice,
               if truthy q then q else baseArtist +:+ " " +:+ baseTitle)
        else ret ("", "", Num.of_Z 0, q)
      else ret ("", "", Num.of_Z 0, q)
  | None => ret ("", "", Num.of_Z 0, q)
  end.

Definition recommend (id country limit q : option string) : M (reply RecommendBody) :=
  try_catch
    (let country := default "US" country in
     let q := default "" q in
     let! '(baseTitle, baseArtist, basePrice, q) := loadBase id country q in
     let q := if truthy q then q else "vinyl record" in
     let! raw := ebaySearch q country "&limit=200" in
     let items := List.filter isVinyl (or_nil (itemSummaries raw)) in
     let idTruthy := match id with Some i => truthy i | None => false end in
     let items := if idTruthy then List.filter (otherThan (default "" id)) items else items in
     let baseWords := baseWordsOf baseTitle in
     let! recommended := mapM (scoreCandidate baseArtist basePrice baseWords) items in
     let recommended :=
       sort (fun a b => (recommend_score b - recommend_score a)%num) recommended in
     ret (Send {| base := {| b_id := if idTruthy then Val (default "" id) else Null;
                             b_title := baseTitle;
                             b_artist := baseArtist;
                             b_price := basePrice |};
                  r_total_items := length recommended;
                  r_items := slice0 (limitNumber limit 20) recommended |}))
    (fun e => ret (Status500 e)).

(** *** 5) Price history *)

(** [json?.findCompletedItemsResponse?.[0]?.searchResult?.[0]?.item || []] *)
Definition completedItems (js : FindingJson) : list FindingItem :=
  or_nil (opt_chain (opt_head (opt_chain (opt_head (findCompletedItemsResponse js))
                                         searchResult))
                    item).

(** [i.sellingStatus?.[0]?.sellingState?.[0] === "EndedWithSales"] *)
Definition endedWithSales (i : FindingItem) : bool :=
  bool_decide (opt_head (opt_chain (opt_head (sellingStatus i)) sellingState)
               = Val "EndedWithSales").

Definition toSoldItem (i : FindingItem) : SoldItem :=
  {| si_title := or_empty (opt_head (f_title i));
     si_price := amountNumber (opt_chain (opt_head (sellingStatus i)) currentPrice);
     si_url := or_empty (opt_head (viewItemURL i));
     si_image := or_else (opt_head (galleryURL i)) Null;
     si_condition :=
       match or_else (opt_head (opt_chain (opt_head (f_condition i)) conditionDisplayName))
                     (Val "Unknown") with
       | Val c => c
       | _ => "Unknown"
       end;
     si_endDate := or_else (opt_head (opt_chain (opt_head (listingInfo i)) endTime)) Null |}.

(** [req.query.limit || 30], as it is spliced into the URL. *)
Definition pageSize (limit : option string) : string :=
  match limit with
  | Some l => if truthy l then l else "30"
  | None => "30"
  end.

Definition price_history (q limit : option string) : M (reply PriceHistoryBody) :=
  try_catch
    (let limit := pageSize limit in
     match q with
     | Some q0 =>
         if truthy q0 then
           let! resp := await (fun n => fetch_completed E n q0 limit) in
           let! js := lift (json resp) in
           let items := completedItems js in
           let soldItems := map toSoldItem (List.filter endedWithSales items) in
           if (length soldItems =? 0)%nat then
             ret (Send {| ph_query := q0; total_sold := 0; ph_stats := None; ph_items := [] |})
           else
             ret (Send {| ph_query := q0;
                          total_sold := length soldItems;
                          ph_stats := Some (priceStats (map si_price soldItems));
                          ph_items := soldItems |})
         else ret (Status400 "Parameter 'q' wajib diisi")
     | None => ret (Status400 "Parameter 'q' wajib diisi")
     end)
    (fun e => ret (Status500 e)).

(** *** 6) Smart chart data *)

Definition toSoldRecord (it : FindingItem) : SoldRecord :=
  {| sr_price := amountNumber (opt_chain (opt_head (sellingStatus it)) currentPrice);
     sr_date := newDate (opt_head (opt_chain (opt_head (listingInfo it)) endTime)) |}.

Definition fetchSold (keyword : string) : M (list SoldRecord) :=
  let! resp := await (fun n => fetch_completed E n keyword "120") in
  let! js := lift (json resp) in
  let items := completedItems js in
  ret (map toSoldRecord (List.filter endedWithSales items)).

(** What [fetchSold(keyword)] resolves to when it runs at step [n]. *)
Definition soldAt (n : nat) (keyword : string) : outcome (list SoldRecord) :=
  match fetch_completed E n keyword "120" with
  | Ok resp =>
      match json resp with
      | Ok js => Ok (map toSoldRecord (List.filter endedWithSales (completedItems js)))
      | Throw e => Throw e
      end
  | Throw e => Throw e
  end.

(** [for (const kw of uniq) { const sold = await fetchSold(kw); combined.push(...sold) }] *)
Fixpoint fetchAll (uniq : list string) (combined : list SoldRecord) : M (list SoldRecord) :=
  match uniq with
  | [] => ret combined
  | kw :: uniq' =>
      let! sold := fetchSold kw in
      fetchAll uniq' (combined ++ sold)
  end.

(** The handler from the merged records on. *)
Definition chartOf (q : string) (uniq : list string) (combined : list SoldRecord)
    : M (reply ChartBody) :=
  let! m := lift (dedupSold combined []) in
  let combined := sortNewestFirst (map_values m) in
  if (length combined =? 0)%nat then
    ret (Send {| ch_query := q;
                 expanded_queries := uniq;
                 total_sold_combined := None;
                 chart := {| d30 := None; d60 := None; d90 := None |} |})
  else
    let! now := ask (clock E) in
    ret (Send {| ch_query := q;
                 expanded_queries := uniq;
                 total_sold_combined := Some (length combined);
                 chart := makeChart now combined |}).

Definition chart_data (q : option string) : M (reply ChartBody) :=
  try_catch
    (match q with
     | Some q0 =>
         if truthy q0 then
           let uniq := Expand.uniq (Expand.expansions q0) in
           let! combined := fetchAll uniq [] in
           chartOf q0 uniq combined
         else ret (Status400 "Parameter 'q' wajib diisi")
     | None => ret (Status400 "Parameter 'q' wajib diisi")
     end)
    (fun e => ret (Status500 e)).
End Server.

(** ** A sample run-time and outside world

    Used to run the handlers on concrete requests.  The conversions are the
    ECMAScript ones on the few literals listed and answer [NaN] and Invalid
    Date elsewhere; every property below that mentions a run-time or an
    environment is proved for all of them. *)

Definition sampleNumbers : list (string * Z) :=
  [ ("0", 0); ("10", 10); ("20", 20); ("30", 30); ("40", 40) ]%Z.

Definition sampleDates : list (string * Z) :=
  [ ("1970-01-01T00:00:00.000Z", 0);
    ("2024-01-01T00:00:00.000Z", 1704067200000);
    ("2024-01-31T00:00:00.000Z", 1706659200000);
    ("2024-01-26T00:00:00.000Z", 1706227200000);
    ("2023-12-27T00:00:00.000Z", 1703635200000);
    ("2023-11-27T00:00:00.000Z", 1701043200000);
    ("2023-10-28T00:00:00.000Z", 1698451200000) ]%Z.

Fixpoint assoc (k : string) (m : list (string * Z)) : option Z :=
  match m with
  | [] => None
  | (k', z) :: m' => if String.eqb k k' then Some z else assoc k m'
  end.

Definition sampleRuntime : runtime :=
  {| StringToNumber := fun s =>
       match assoc s sampleNumbers with Some z => Num.of_Z z | None => NaN end;
     DateParse := fun s =>
       match assoc s sampleDates with Some z => DateAt z | None => InvalidDate end |}.

(** The process right after start-up: [accessToken = null],
    [accessTokenExpiresAt = 0], an empty [cacheStore]. *)
Definition initialWorld : world :=
  {| cacheStore := ∅;
     accessToken := Null;
     accessTokenExpiresAt := Num.of_Z 0;
     step := 0%nat |}.

Definition goodToken : outcome (Http TokenJson) :=
  Ok {| ok := true;
        json := Ok {| access_token := Val "token"; expires_in := Val (Num.of_Z 7200) |} |}.

(** An outside world whose searches all answer [found] and whose completed
    listings are given per keyword; [Math.random()] returns 0. *)
Definition sampleEnv (found : SearchJson)
    (completed : string -> outcome (Http FindingJson)) : env :=
  {| clock := fun n => (1706659200000 + Z.of_nat n)%Z;
     random := fun _ => Num.of_Z 0;
     fetch_token := fun _ => goodToken;
     fetch_search := fun _ _ _ _ => Ok {| ok := true; json := Ok found |};
     fetch_item := fun _ _ _ => Throw (FetchFailed "unreachable");
     fetch_completed := fun _ kw _ => completed kw |}.

Definition noCompleted : string -> outcome (Http FindingJson) :=
  fun _ => Ok {| ok := true; json := Ok {| findCompletedItemsResponse := Undefined |} |}.

(** Completed listings that cannot be reached for the keyword [bad] and are
    empty for every other keyword. *)
Definition unreachableFor (bad : string) : string -> outcome (Http FindingJson) :=
  fun kw => if String.eqb kw bad then Throw (FetchFailed "network") else noCompleted kw.

(** One completed sale of the Finding API: price, end time. *)
Definition soldListing (amount : field string) (ended : field (list string)) : FindingItem :=
  {| f_title := Undefined;
     sellingStatus :=
       Val [ {| sellingState := Val ["EndedWithSales"];
                currentPrice := Val [ {| __value__ := amount |} ] |} ];
     viewItemURL := Undefined;
     galleryURL := Undefined;
     f_condition := Undefined;
     listingInfo := Val [ {| endTime := ended |} ] |}.

Definition completedWith (items : list FindingItem) : string -> outcome (Http FindingJson) :=
  fun _ =>
    Ok {| ok := true;
          json := Ok {| findCompletedItemsResponse :=
                          Val [ {| searchResult := Val [ {| item := Val items |} ] |} ] |} |}.



(** ** The remaining routes and their helpers *)

(** A string made of ASCII characters only (code units below 128).  On
    these strings [Str.toLowerCase], [Market.toUpperCase], [Str.trim] and
    the white-space class are exactly the ECMAScript ones; a character
    outside ASCII may have a case mapping or be white space in ECMAScript
    and is left alone here. *)
Definition isAscii (s : string) : bool :=
  forallb (fun c => (N_of_ascii c <? 128)%N) (list_ascii_of_string s).

(** The magnitude of [x] is at most [bound]. *)
Definition atMost (bound : Z) (x : number) : Prop :=
  Num.le (Num.abs x) (Num.of_Z bound).

(** The cache key of [ebaySearch]: [`V|${marketplace}|${q}|${extra}`]. *)
Definition cacheKeyOf (marketplace q extra : string) : string :=
  "V|" +:+ marketplace +:+ "|" +:+ q +:+ "|" +:+ extra.

(** The values of [extra] the handlers pass to [ebaySearch]. *)
Definition SEARCH_EXTRAS : list string :=
  [ "&limit=50&sort=BEST_MATCH"; "&limit=200"; "&limit=20" ].

(** The marketplace identifiers of [MARKET_MAP] and of the fallback. *)
Definition MARKETPLACES : list string :=
  [ "EBAY_US"; "EBAY_GB"; "EBAY_CA"; "EBAY_AU"; "EBAY_DE"; "EBAY_FR";
    "EBAY_IT"; "EBAY_ES" ].

(** [xs.slice(start, end)]: both bounds go through [ToIntegerOrInfinity]
    and the same clamping against the length. *)
Definition slice {A} (start end_ : number) (xs : list A) : list A :=
  let k := Num.sliceEnd start (length xs) in
  let final := Num.sliceEnd end_ (length xs) in
  firstn (final - k) (skipn k xs).

(** [count] of a window summary, 0 for [null]. *)
Definition countOf (s : option Summary) : nat :=
  match s with
  | Some s => count s
  | None => 0%nat
  end.

(** The stored credential and cache of two worlds agree. *)
Definition sameCredential (w w' : world) : Prop :=
  accessToken w' = accessToken w /\ accessTokenExpiresAt w' = accessTokenExpiresAt w.

Record SearchBody := {
  sb_country : string;
  sb_query : string;
  sb_total : nat;
  sb_items : list CanonicalItem;
}.

Record LookupBody := {
  lb_code : string;
  fallback : bool;
  lb_total_items : nat;
  lb_items : list CanonicalItem;
}.

(** *** 2) /vinyl-search *)

Section VinylSearch.
Context (rt : runtime) (E : env).

(** The property [itemCreationDate] of an item summary, which the record
    [RawItem] does not carry. *)
Variable itemCreationDate : RawItem -> field string.

(** [new Date(it.itemCreationDate || 0)] *)
Definition creationDate (it : RawItem) : Date :=
  match itemCreationDate it with
  | Val s => if truthy s then DateParse rt s else DateAt 0
  | _ => DateAt 0
  end.

Definition byPriceLow (a b : RawItem) : number :=
  (priceNumber rt (price a) - priceNumber rt (price b))%num.

Definition byPriceHigh (a b : RawItem) : number :=
  (priceNumber rt (price b) - priceNumber rt (price a))%num.

Definition byNewest (a b : RawItem) : number :=
  (dateValue (creationDate b) - dateValue (creationDate a))%num.

(** The three [if (sort === ...) items.sort(...)] statements. *)
Definition sortItems (sortBy : string) (items : list RawItem) : list RawItem :=
  let items := if String.eqb sortBy "price_low" then sort byPriceLow items else items in
  let items := if String.eqb sortBy "price_high" then sort byPriceHigh items else items in
  if String.eqb sortBy "newest" then sort byNewest items else items.

(** [items.slice(start, start + Number(limit))] for
    [start = (Number(page) - 1) * Number(limit)]. *)
Definition pageOf {A} (page limit : number) (items : list A) : list A :=
  let start := ((page - Num.of_Z 1) * limit)%num in
  slice start (start + limit)%num items.

Definition vinyl_search (q country page limit sortBy : option string)
    : M (reply SearchBody) :=
  try_catch
    (let q := default "" q in
     let country := default "US" country in
     let sortBy := default "best" sortBy in
     let! js := ebaySearch E q country "&limit=200" in
     let items := List.filter isVinyl (or_nil (itemSummaries js)) in
     let items := sortItems sortBy items in
     let paged := pageOf (limitNumber rt page 1) (limitNumber rt limit 20) items in
     ret (Send {| sb_country := country;
                  sb_query := q;
                  sb_total := length items;
                  sb_items := map normalizeVinyl paged |}))
    (fun e => ret (Status500 e)).

End VinylSearch.

(** *** 3) Lookup barcode *)

Section Lookup.
Context (E : env).

(** The answer of the item search by GTIN at a step, for a marketplace and
    a code. *)
Variable fetch_gtin : nat -> string -> string -> outcome (Http SearchJson).

Definition lookup_barcode (code country : option string) : M (reply LookupBody) :=
  try_catch
    (let country :=
       match country with
       | Some c => if truthy c then c else "US"
       | None => "US"
       end in
     match code with
     | Some code0 =>
         if truthy code0 then
           let! token := getAccessToken E in
           let marketplace := Market.resolveMarketplace country in
           let! resp := await (fun n => fetch_gtin n marketplace code0) in
           let! js := lift (json resp) in
           let items := List.filter isVinyl (or_nil (itemSummaries js)) in
           if (length items =? 0)%nat then
             let! fb := ebaySearch E code0 country "&limit=20" in
             let items := List.filter isVinyl (or_nil (itemSummaries fb)) in
             ret (Send {| lb_code := code0;
                          fallback := true;
                          lb_total_items := length items;
                          lb_items := map normalizeVinyl items |})
           else
             ret (Send {| lb_code := code0;
                          fallback := false;
                          lb_total_items := length items;
                          lb_items := map normalizeVinyl items |})
         else ret (Status400 "Parameter 'code' wajib diisi")
     | None => ret (Status400 "Parameter 'code' wajib diisi")
     end)
    (fun e => ret (Status500 e)).

End Lookup.

(** The part of [ebaySearch] that runs when the cache has no fresh entry. *)
Definition searchUpstream (E : env) (cacheKey marketplace q extra : string) : M SearchJson :=
  let! token := getAccessToken E in
  let! resp := await (fun n => fetch_search E n marketplace q extra) in
  let! js := lift (json resp) in
  if negb (ok resp) then throw (EbayError js)
  else
    let! _ := setCacheM E cacheKey js (Num.of_Z (5 * 60 * 1000)) in
    ret js.

(** A world with another cache store. *)
Definition withStore (st : gmap string (CacheEntry SearchJson)) (w : world) : world :=
  {| cacheStore := st;
     accessToken := accessToken w;
     accessTokenExpiresAt := accessTokenExpiresAt w;
     step := step w |}.

(** A world with another credential. *)
Definition withToken (tok : field string) (expiresAt : number) (w : world) : world :=
  {| cacheStore := cacheStore w;
     accessToken := tok;
     accessTokenExpiresAt := expiresAt;
     step := step w |}.

(** The stored token is usable when the clock reads [now]. *)
Definition tokenValid (now : Z) (w : world) : bool :=
  is_truthy (accessToken w) && Num.ltb (Num.of_Z now) (accessTokenExpiresAt w).

(** An outside world like [sampleEnv] whose identity endpoint rejects every
    renewal. *)
Definition deniedToken : outcome (Http TokenJson) :=
  Ok {| ok := false;
        json := Ok {| access_token := Undefined; expires_in := Undefined |} |}.

Definition deniedEnv (found : SearchJson) : env :=
  {| clock := fun n => (1706659200000 + Z.of_nat n)%Z;
     random := fun _ => Num.of_Z 0;
     fetch_token := fun _ => deniedToken;
     fetch_search := fun _ _ _ _ => Ok {| ok := true; json := Ok found |};
     fetch_item := fun _ _ _ => Throw (FetchFailed "unreachable");
     fetch_completed := fun _ kw _ => noCompleted kw |}.

(** An outside world like [sampleEnv] whose item search answers with an
    error status and the body [body]. *)
Definition failingSearchEnv (body : SearchJson) : env :=
  {| clock := fun n => (1706659200000 + Z.of_nat n)%Z;
     random := fun _ => Num.of_Z 0;
     fetch_token := fun _ => goodToken;
     fetch_search := fun _ _ _ _ => Ok {| ok := false; json := Ok body |};
     fetch_item := fun _ _ _ => Throw (FetchFailed "unreachable");
     fetch_completed := fun _ kw _ => noCompleted kw |}.

(** A world holding the token "token", good until [expiresAt]. *)
Definition worldWithToken (expiresAt : Z) : world :=
  withToken (Val "token") (Num.of_Z expiresAt) initialWorld.

(** The last two characters of a string (the string itself when it is
    shorter). *)
Fixpoint lastTwo (s : string) : string :=
  match s with
  | EmptyString => EmptyString
  | String a s' =>
      match s' with
      | String _ (String _ _) => lastTwo s'
      | _ => s
      end
  end.

(** A world whose cache holds [js] for the search ("abbey road", US,
    "&limit=200"), stored at the first clock reading of [sampleEnv]. *)
Definition cachedWorld (js : SearchJson) : world :=
  withStore
    (setCache 1706659200000 (cacheKeyOf "EBAY_US" "abbey road" "&limit=200") js
              (Num.of_Z 300000) ∅)
    initialWorld.

(** An item summary with an id, a title and a price. *)
Definition itemWith (i t amount : string) : RawItem :=
  {| itemId := Val i; title := Val t; brand := Undefined;
     price := Val {| value := Val amount |};
     thumbnailImages := Undefined; image := Undefined;
     itemWebUrl := Undefined; condition := Undefined |}.

(** An outside world like [sampleEnv] whose item-detail endpoint answers
    [detail]. *)
Definition detailEnv (detail : RawItem) (found : SearchJson) : env :=
  {| clock := fun n => (1706659200000 + Z.of_nat n)%Z;
     random := fun _ => Num.of_Z 0;
     fetch_token := fun _ => goodToken;
     fetch_search := fun _ _ _ _ => Ok {| ok := true; json := Ok found |};
     fetch_item := fun _ _ _ => Ok {| ok := true; json := Ok detail |};
     fetch_completed := fun _ kw _ => noCompleted kw |}.
(** * Properties *)

(** ** Strings *)

Lemma append_cons (c : ascii) (s t : string) :
  String c s +:+ t = String c (s +:+ t).
Proof. reflexivity. Qed.

Lemma append_empty (t : string) : "" +:+ t = t.
Proof. reflexivity. Qed.

Lemma startsWith_spec (s w : string) :
  Str.startsWith s w = true <-> exists post, s = w +:+ post.
Proof.
  revert s; induction w as [|a w IH]; intros s; simpl.
  - split; [intros _; exists s; reflexivity | intros _; destruct s; reflexivity].
  - destruct s as [|b s]; simpl.
    + split; [discriminate | intros [post H]; discriminate].
    + destruct (ascii_dec a b) as [->|Hne].
      * rewrite IH. split; intros [post H]; exists post.
        -- rewrite append_cons; congruence.
        -- rewrite append_cons in H; congruence.
      * split; [discriminate | intros [post H]; rewrite append_cons in H; congruence].
Qed.

Lemma includes_spec (s w : string) :
  Str.includes s w = true <-> Str.substring_of w s.
Proof.
  unfold Str.substring_of.
  induction s as [|c s IH]; cbn [Str.includes]; rewrite orb_true_iff, startsWith_spec.
  - split.
    + intros [[post H]|H]; [|discriminate]. exists "", post; exact H.
    + intros (pre & post & H). left.
      destruct pre; [exists post; exact H | discriminate].
  - rewrite IH. split.
    + intros [[post H]|(pre & post & H)].
      * exists "", post; exact H.
      * exists (String c pre), post; rewrite append_cons; congruence.
    + intros (pre & post & H). destruct pre as [|c' pre].
      * left; exists post; exact H.
      * right; exists pre, post; rewrite append_cons in H; congruence.
Qed.

Lemma includes_false_spec (s w : string) :
  Str.includes s w = false <-> ~ Str.substring_of w s.
Proof.
  rewrite <- includes_spec. destruct (Str.includes s w); split; congruence.
Qed.

(** ** Vinyl filtering *)

Lemma block_scan_spec (t : string) :
  existsb (fun w => Str.includes t w) BLOCK_WORDS = true <-> has_block_word t.
Proof.
  unfold has_block_word. rewrite existsb_exists.
  split; intros (w & Hin & H); exists w; split; auto; apply includes_spec; exact H.
Qed.

Lemma allow_scan_spec (t : string) :
  existsb (fun w => Str.includes t w) ALLOW_WORDS = true <-> has_allow_word t.
Proof.
  unfold has_allow_word. rewrite existsb_exists.
  split; intros (w & Hin & H); exists w; split; auto; apply includes_spec; exact H.
Qed.

Lemma isVinyl_unfold (it : RawItem) :
  isVinyl it =
  match title it with
  | Val s =>
      negb (existsb (fun w => Str.includes (Str.toLowerCase s) w) BLOCK_WORDS)
      && existsb (fun w => Str.includes (Str.toLowerCase s) w) ALLOW_WORDS
  | _ => false
  end.
Proof.
  unfold isVinyl. destruct (title it) as [| |s]; try reflexivity.
  destruct s as [|c s]; [reflexivity|].
  cbn [is_truthy truthy string_truthy negb].
  destruct (existsb _ BLOCK_WORDS); [reflexivity|].
  cbn [negb andb ALLOW_WORDS existsb].
  rewrite orb_false_r, !orb_assoc. reflexivity.
Qed.

Lemma isVinyl_true_iff (it : RawItem) :
  isVinyl it = true <->
  exists s, title it = Val s
            /\ ~ has_block_word (Str.toLowerCase s)
            /\ has_allow_word (Str.toLowerCase s).
Proof.
  rewrite isVinyl_unfold. destruct (title it) as [| |s].
  - split; [discriminate | intros (s & H & _); discriminate].
  - split; [discriminate | intros (s & H & _); discriminate].
  - rewrite andb_true_iff, negb_true_iff, allow_scan_spec. split.
    + intros [Hb Ha]. exists s. repeat split; auto.
      rewrite <- block_scan_spec, Hb. discriminate.
    + intros (s' & [= <-] & Hb & Ha). split; auto.
      apply not_true_is_false. rewrite block_scan_spec. exact Hb.
Qed.

(** C3. A title whose lower-cased form contains a block-list keyword is
    rejected whatever else it contains; a title without block-list keyword
    and with an allow-list keyword is accepted; a title with neither is
    rejected; and an item without a title (missing, null or empty) is
    rejected. *)
Theorem isVinyl_classification (it : RawItem) :
  (forall s, title it = Val s -> has_block_word (Str.toLowerCase s) ->
             isVinyl it = false)
  /\ (forall s, title it = Val s -> ~ has_block_word (Str.toLowerCase s) ->
                has_allow_word (Str.toLowerCase s) -> isVinyl it = true)
  /\ (forall s, title it = Val s -> ~ has_block_word (Str.toLowerCase s) ->
                ~ has_allow_word (Str.toLowerCase s) -> isVinyl it = false)
  /\ (is_truthy (title it) = false -> isVinyl it = false).
Proof.
  repeat split.
  - intros s Ht Hb. apply not_true_is_false. rewrite isVinyl_true_iff.
    intros (s' & Ht' & Hnb & _). rewrite Ht in Ht'. injection Ht' as <-. tauto.
  - intros s Ht Hnb Ha. apply isVinyl_true_iff. eauto.
  - intros s Ht Hnb Hna. apply not_true_is_false. rewrite isVinyl_true_iff.
    intros (s' & Ht' & _ & Ha). rewrite Ht in Ht'. injection Ht' as <-. tauto.
  - intros Ht. unfold isVinyl. rewrite Ht. reflexivity.
Qed.

Lemma isVinyl_classification_witness :
  isVinyl (titled "Pink Floyd Vinyl Poster") = false
  /\ isVinyl (titled "Abbey Road LP") = true
  /\ isVinyl (titled "Guitar strings") = false
  /\ isVinyl bareItem = false.
Proof.
  destruct (isVinyl_classification (titled "Pink Floyd Vinyl Poster")) as (H1 & _).
  destruct (isVinyl_classification (titled "Abbey Road LP")) as (_ & H2 & _).
  destruct (isVinyl_classification (titled "Guitar strings")) as (_ & _ & H3 & _).
  destruct (isVinyl_classification bareItem) as (_ & _ & _ & H4).
  split; [|split; [|split]].
  - apply (H1 "Pink Floyd Vinyl Poster"); [reflexivity|].
    apply block_scan_spec; reflexivity.
  - apply (H2 "Abbey Road LP"); [reflexivity| |].
    + rewrite <- block_scan_spec; vm_compute; discriminate.
    + apply allow_scan_spec; reflexivity.
  - apply (H3 "Guitar strings"); [reflexivity| |].
    + rewrite <- block_scan_spec; vm_compute; discriminate.
    + rewrite <- allow_scan_spec; vm_compute; discriminate.
  - apply H4; reflexivity.
Defined.

Lemma mem_spec (w : string) (ws : list string) :
  Str.mem w ws = true <-> In w ws.
Proof.
  unfold Str.mem. rewrite existsb_exists. split.
  - intros (x & Hin & Heq). apply String.eqb_eq in Heq. congruence.
  - intros Hin. exists w. split; [exact Hin | apply String.eqb_refl].
Qed.

Lemma no_whole_word (keywords : list string) (t : string) :
  forallb (fun w => negb (Str.mem w (Str.splitSpaces t))) keywords = true ->
  forall w, In w keywords -> ~ whole_word w t.
Proof.
  rewrite forallb_forall. intros H w Hin Hw.
  apply mem_spec in Hw. specialize (H w Hin). rewrite Hw in H. discriminate.
Qed.

(** C10. Keywords are matched as raw substrings of the lower-cased title,
    not as words.  "Help!" has no allow-list keyword among its words, yet
    "lp" inside "help!" makes it a vinyl item; "Saxophone vinyl" has the
    allow-list keyword "vinyl" and no block-list keyword among its words,
    yet "phone" inside "saxophone" rejects it. *)
Theorem isVinyl_substring_matching :
  ((forall w, In w ALLOW_WORDS -> ~ whole_word w (Str.toLowerCase "Help!"))
   /\ Str.substring_of "lp" (Str.toLowerCase "Help!")
   /\ isVinyl (titled "Help!") = true)
  /\ ((forall w, In w BLOCK_WORDS -> ~ whole_word w (Str.toLowerCase "Saxophone vinyl"))
      /\ whole_word "vinyl" (Str.toLowerCase "Saxophone vinyl")
      /\ Str.substring_of "phone" (Str.toLowerCase "Saxophone vinyl")
      /\ isVinyl (titled "Saxophone vinyl") = false).
Proof.
  split; [split; [|split] | split; [|split; [|split]]].
  - apply (no_whole_word ALLOW_WORDS). vm_compute; reflexivity.
  - apply includes_spec; reflexivity.
  - reflexivity.
  - apply (no_whole_word BLOCK_WORDS). vm_compute; reflexivity.
  - apply mem_spec; reflexivity.
  - apply includes_spec; reflexivity.
  - reflexivity.
Qed.

(** ** Normalizer *)

Lemma or_else_falsy {A} `{Truthy A} (x y : field A) :
  is_truthy x = false -> or_else x y = y.
Proof. unfold or_else; intros ->; reflexivity. Qed.

Lemma or_else_truthy {A} `{Truthy A} (x y : field A) :
  is_truthy x = true -> or_else x y = x.
Proof. unfold or_else; intros ->; reflexivity. Qed.

Lemma or_else_null {A} `{Truthy A} (x : field A) :
  or_else x Null = if is_truthy x then x else Null.
Proof. reflexivity. Qed.

(** The claim as stated fails: a raw item without [itemId], [title] and
    [itemWebUrl] keeps them undefined, it does not get [null]. *)
Lemma normalizeVinyl_missing_is_undefined :
  itemId bareItem = Undefined
  /\ title bareItem = Undefined
  /\ itemWebUrl bareItem = Undefined
  /\ c_itemId (normalizeVinyl bareItem) <> Null
  /\ c_title (normalizeVinyl bareItem) <> Null
  /\ c_url (normalizeVinyl bareItem) <> Null.
Proof. repeat split; discriminate. Qed.

(** C4 (amended). [normalizeVinyl] is a total function of the raw item.  It
    copies [itemId], [title] and [itemWebUrl] unchanged, so a missing one
    stays undefined; a missing (or otherwise falsy) price, image or
    condition becomes null; the artist is the brand when that is present
    and non-empty, otherwise the trimmed text before the first hyphen of
    the title when that is non-empty, otherwise null. *)
Theorem normalizeVinyl_fields (it : RawItem) :
  let n := normalizeVinyl it in
  (c_itemId n = itemId it /\ c_title n = title it /\ c_url n = itemWebUrl it)
  /\ (price it = Undefined -> c_price n = Null)
  /\ (forall p, price it = Val p -> c_price n = Val p)
  /\ (is_truthy (condition it) = false -> c_condition n = Null)
  /\ (is_truthy (condition it) = true -> c_condition n = condition it)
  /\ (thumbnailImages it = Undefined -> image it = Undefined -> c_image n = Null)
  /\ (is_truthy (brand it) = true -> c_artist n = brand it)
  /\ (is_truthy (brand it) = false ->
      forall s, title it = Val s ->
                Str.trim (Str.beforeHyphen s) <> "" ->
                c_artist n = Val (Str.trim (Str.beforeHyphen s)))
  /\ (is_truthy (brand it) = false ->
      forall s, title it = Val s ->
                Str.trim (Str.beforeHyphen s) = "" -> c_artist n = Null)
  /\ (is_truthy (brand it) = false -> title it = Undefined -> c_artist n = Null).
Proof.
  cbn zeta. unfold normalizeVinyl; cbn [c_itemId c_title c_url c_price c_condition c_image c_artist].
  repeat match goal with |- _ /\ _ => split end; try reflexivity.
  - intros ->; reflexivity.
  - intros p ->; reflexivity.
  - intros H; rewrite or_else_falsy; auto.
  - intros H; rewrite or_else_truthy; auto.
  - intros -> ->; reflexivity.
  - intros H. rewrite (or_else_truthy (brand it)) by exact H.
    rewrite or_else_truthy; auto.
  - intros H s Ht Hne. rewrite (or_else_falsy (brand it)) by exact H.
    unfold titleArtist; rewrite Ht. unfold or_else; cbn.
    destruct (Str.trim (Str.beforeHyphen s)); [congruence | reflexivity].
  - intros H s Ht He. rewrite (or_else_falsy (brand it)) by exact H.
    unfold titleArtist; rewrite Ht, He. reflexivity.
  - intros H Ht. rewrite (or_else_falsy (brand it)) by exact H.
    unfold titleArtist; rewrite Ht. reflexivity.
Qed.

Lemma normalizeVinyl_fields_witness :
  c_price (normalizeVinyl bareItem) = Null
  /\ c_condition (normalizeVinyl bareItem) = Null
  /\ c_image (normalizeVinyl bareItem) = Null
  /\ c_artist (normalizeVinyl bareItem) = Null
  /\ c_artist (normalizeVinyl (titled "Pink Floyd - The Wall LP")) = Val "Pink Floyd"
  /\ c_artist (normalizeVinyl (titled " - The Wall LP")) = Null.
Proof.
  pose proof (normalizeVinyl_fields bareItem) as (_ & Hp & _ & Hc & _ & Hi & _ & _ & _ & Ha).
  pose proof (normalizeVinyl_fields (titled "Pink Floyd - The Wall LP"))
    as (_ & _ & _ & _ & _ & _ & _ & Ht & _ & _).
  pose proof (normalizeVinyl_fields (titled " - The Wall LP"))
    as (_ & _ & _ & _ & _ & _ & _ & _ & He & _).
  split; [|split; [|split; [|split; [|split]]]].
  - apply Hp; reflexivity.
  - apply Hc; reflexivity.
  - apply Hi; reflexivity.
  - apply Ha; reflexivity.
  - apply (Ht eq_refl "Pink Floyd - The Wall LP" eq_refl). vm_compute. discriminate.
  - apply (He eq_refl " - The Wall LP" eq_refl). reflexivity.
Defined.

(** ** Numbers *)

Lemma Qc_ltb_lt (a b : Qc) : Num.Qc_ltb a b = true <-> (a < b)%Qc.
Proof.
  unfold Num.Qc_ltb. rewrite negb_true_iff. split.
  - intros H. apply Qcnot_le_lt. intros Hle.
    apply Qle_bool_iff in Hle. congruence.
  - intros H. apply not_true_is_false. intros Hle.
    apply Qle_bool_iff in Hle. exact (Qclt_not_le _ _ H Hle).
Qed.

Lemma Qc_ltb_ge (a b : Qc) : Num.Qc_ltb a b = false <-> (b <= a)%Qc.
Proof.
  rewrite <- not_true_iff_false, Qc_ltb_lt. split.
  - apply Qcnot_lt_le.
  - intros H1 H2. exact (Qclt_not_le _ _ H2 H1).
Qed.

Lemma Qc_of_Z_0 : Qc_of_Z 0 = 0%Qc.
Proof. apply Qc_is_canon; reflexivity. Qed.

Lemma add_NaN_l (x : number) : (NaN + x)%num = NaN.
Proof. reflexivity. Qed.

Lemma add_NaN_r (x : number) : (x + NaN)%num = NaN.
Proof. destruct x; reflexivity. Qed.

(** A deadline a positive delay away has not passed yet. *)
Lemma deadline_not_passed (now : Z) (ttl : number) :
  Num.gtb ttl (Num.of_Z 0) = true ->
  Num.gtb (Num.of_Z now) (Num.of_Z now + ttl)%num = false.
Proof.
  destruct ttl as [| | |q]; cbn; try discriminate; try reflexivity.
  rewrite Qc_ltb_lt, Qc_ltb_ge, Qc_of_Z_0. intros Hq.
  rewrite <- (Qcplus_0_r (Qc_of_Z now)) at 1.
  apply Qcplus_le_mono_l. apply Qclt_le_weak. exact Hq.
Qed.


(** ** Cache memory *)

Section CacheProperties.
Context {V : Type}.
Implicit Types (store : gmap string (CacheEntry V)) (key : string) (v : V).

Lemma getCache_fresh store key c now :
  store !! key = Some c ->
  Num.gtb (Num.of_Z now) (exp c) = false ->
  getCache now key store = (Some (val c), store).
Proof. unfold getCache; intros -> ->; reflexivity. Qed.

Lemma getCache_expired store key c now :
  store !! key = Some c ->
  Num.gtb (Num.of_Z now) (exp c) = true ->
  getCache now key store = (None, delete key store).
Proof. unfold getCache; intros -> ->; reflexivity. Qed.

Lemma getCache_some_inv store key now v store' :
  getCache now key store = (Some v, store') ->
  exists c, store !! key = Some c /\ val c = v
            /\ Num.gtb (Num.of_Z now) (exp c) = false /\ store' = store.
Proof.
  unfold getCache. destruct (store !! key) as [c|] eqn:Hk; [|discriminate].
  destruct (Num.gtb _ _) eqn:Hg; [discriminate|].
  intros [= <- <-]. exists c; auto.
Qed.

(** C5. A [getCache] at the clock reading of the [setCache] returns the
    value just stored, for every positive TTL; a value that [getCache]
    returns belongs to an entry whose expiry time has not passed; and once
    the clock is past an entry's expiry time, [getCache] returns null and
    leaves the store without that entry. *)
Theorem cache_get_after_set_and_expiry :
  (forall store key v ttl now,
      Num.gtb ttl (Num.of_Z 0) = true ->
      getCache now key (setCache now key v ttl store)
      = (Some v, setCache now key v ttl store))
  /\ (forall store key now v store',
         getCache now key store = (Some v, store') ->
         exists c, store !! key = Some c /\ val c = v
                   /\ Num.gtb (Num.of_Z now) (exp c) = false)
  /\ (forall store key c now,
         store !! key = Some c ->
         Num.gtb (Num.of_Z now) (exp c) = true ->
         getCache now key store = (None, delete key store)
         /\ delete key store !! key = None)
  /\ (forall store key v ttl now later,
         Num.gtb (Num.of_Z later) (Num.of_Z now + ttl)%num = true ->
         getCache later key (setCache now key v ttl store) = (None, delete key store)).
Proof.
  split; [|split; [|split]].
  - intros store key v ttl now Httl.
    unfold setCache.
    apply (getCache_fresh _ key {| val := v; exp := (Num.of_Z now + ttl)%num |}).
    + apply lookup_insert_eq.
    + cbn [exp]. apply deadline_not_passed; exact Httl.
  - intros store key now v store' H.
    apply getCache_some_inv in H as (c & ? & ? & ? & _). eauto.
  - intros store key c now Hk Hexp. split.
    + apply getCache_expired with c; assumption.
    + apply lookup_delete_eq.
  - intros store key v ttl now later Hexp. unfold setCache.
    rewrite (getCache_expired _ key {| val := v; exp := (Num.of_Z now + ttl)%num |});
      [| apply lookup_insert_eq | exact Hexp].
    rewrite delete_insert_eq. reflexivity.
Qed.

End CacheProperties.

Lemma cache_get_after_set_and_expiry_witness :
  getCache 1000 "k" (setCache 1000 "k" 7%nat (Num.of_Z 300000) ∅)
  = (Some 7%nat, setCache 1000 "k" 7%nat (Num.of_Z 300000) ∅)
  /\ getCache 301001 "k" (setCache 1000 "k" 7%nat (Num.of_Z 300000) ∅) = (None, delete "k" ∅).
Proof.
  pose proof (@cache_get_after_set_and_expiry nat) as (Hset & _ & _ & Hlate).
  split.
  - apply Hset. reflexivity.
  - apply Hlate. reflexivity.
Defined.

(** ** Recommendation score *)

Section ScoreProperties.
Context (rt : runtime).

Lemma Qc_is0_spec (a : Qc) : Num.Qc_is0 a = true <-> a = 0%Qc.
Proof.
  unfold Num.Qc_is0. rewrite Qeq_bool_iff. split.
  - intros H. apply Qc_is_canon. exact H.
  - intros ->. reflexivity.
Qed.

(** With a base price of 0 the quotient [diff / basePrice] is [0 / 0] for a
    candidate whose own price is 0. *)
Lemma priceTerm_zero_zero : priceTerm (Num.of_Z 0) (Num.of_Z 0) = NaN.
Proof. reflexivity. Qed.

(** With a base price of 0 and a candidate priced at a finite non-zero
    amount the quotient is [+Infinity] and [Math.max] floors the term at 0. *)
Lemma priceTerm_zero_base_priced (q : Qc) :
  q <> 0%Qc -> priceTerm (Num.of_Z 0) (Fin q) = Num.of_Z 0.
Proof.
  intros Hq. unfold priceTerm, Num.of_Z, Num.sub, Num.neg, Num.add, Num.abs.
  set (d := (q + - Qc_of_Z 0)%Qc).
  assert (Hd : d = q) by (unfold d; rewrite Qc_of_Z_0; ring).
  set (a := if Num.Qc_ltb d 0 then (- d)%Qc else d).
  assert (Ha0 : Num.Qc_is0 a = false).
  { apply not_true_is_false. rewrite Qc_is0_spec. unfold a.
    destruct (Num.Qc_ltb d 0); rewrite Hd; [|exact Hq].
    intros H. apply Hq. rewrite <- (Qcopp_involutive q), H. reflexivity. }
  assert (Ha : Num.Qc_ltb a 0 = false).
  { apply Qc_ltb_ge. unfold a. destruct (Num.Qc_ltb d 0) eqn:E.
    - apply Qc_ltb_lt in E. apply Qclt_le_weak in E.
      apply Qcopp_le_compat in E.
      replace (- 0)%Qc with 0%Qc in E by (apply Qc_is_canon; reflexivity).
      exact E.
    - apply Qc_ltb_ge in E. exact E. }
  unfold Num.div. replace (Num.Qc_is0 (Qc_of_Z 0)) with true by reflexivity.
  rewrite Ha0, Ha. reflexivity.
Qed.

(** C1 (the code at the failing input).  When the base price is 0 and the
    candidate's resolved price is 0 as well, the price-similarity term is
    [NaN], and so is the score the handler reports, whatever the artist, the
    titles and the random jitter are. *)
Theorem recommend_score_nan_when_prices_are_zero
    (baseArtist : string) (baseWords words : list string) (it : RawItem) (rnd : number) :
  priceNumber rt (price it) = Num.of_Z 0 ->
  priceTerm (Num.of_Z 0) (priceNumber rt (price it)) = NaN
  /\ Num.toFixed2 (rawScore rt baseArtist (Num.of_Z 0) baseWords it words rnd) = NaN.
Proof.
  intros Hp. unfold rawScore. cbv zeta. rewrite Hp, priceTerm_zero_zero.
  split; [reflexivity|].
  rewrite add_NaN_r, !add_NaN_l. reflexivity.
Qed.

(** The rest of C1 holds: with a base price of 0, a candidate priced at a
    finite non-zero amount gets a price term of exactly 0 and a finite
    score, for every finite jitter. *)
Lemma recommend_score_finite_when_priced
    (baseArtist : string) (baseWords words : list string) (it : RawItem) (q r : Qc) :
  priceNumber rt (price it) = Fin q -> q <> 0%Qc ->
  priceTerm (Num.of_Z 0) (priceNumber rt (price it)) = Num.of_Z 0
  /\ Num.isFinite
       (Num.toFixed2 (rawScore rt baseArtist (Num.of_Z 0) baseWords it words (Fin r))) = true.
Proof.
  intros Hp Hq. unfold rawScore. cbv zeta.
  rewrite Hp, priceTerm_zero_base_priced by exact Hq.
  split; [reflexivity|].
  assert (Hart : exists a, artistTerm baseArtist (normalizeVinyl it) = Fin a).
  { unfold artistTerm. destruct (c_artist _); eauto.
    destruct (_ && _); eauto. }
  destruct Hart as [a ->]. cbn. destruct (Num.Qc_leb _ _); reflexivity.
Qed.

End ScoreProperties.

Lemma recommend_score_nan_when_prices_are_zero_witness :
  priceTerm (Num.of_Z 0) (priceNumber sampleRuntime (price (titled "Abbey Road LP"))) = NaN
  /\ Num.toFixed2
       (rawScore sampleRuntime "" (Num.of_Z 0) [] (titled "Abbey Road LP")
                 ["abbey"; "road"; "lp"] (Num.of_Z 0)) = NaN.
Proof.
  apply (recommend_score_nan_when_prices_are_zero sampleRuntime). reflexivity.
Defined.

(** The whole handler on a free-text request (no [id], so the base price is
    0) whose search finds one vinyl item without a price: the item is
    reported with a [NaN] score. *)
Example recommend_free_text_unpriced_item :
  let E := sampleEnv {| itemSummaries := Val [titled "Abbey Road LP"] |} noCompleted in
  exists body w,
    recommend sampleRuntime E None None None (Some "abbey road") initialWorld
    = (Ok (Send body), w)
    /\ map recommend_score (r_items body) = [NaN].
Proof.
  cbn zeta. eexists _, _. split; [vm_compute; reflexivity | reflexivity].
Qed.

(** ** Price history: the empty case *)

Lemma filter_none {A} (f : A -> bool) (l : list A) :
  (forall x, In x l -> f x = false) -> List.filter f l = [].
Proof.
  induction l as [|x l IH]; intros H; [reflexivity|]. cbn.
  rewrite (H x) by (left; reflexivity). apply IH. intros y Hy. apply H. right; exact Hy.
Qed.

(** C7. When the upstream answer holds no record whose sale state is
    "EndedWithSales", the handler sends a success body with the query,
    [total_sold] 0, no items and none of the price fields. *)
Theorem price_history_no_sales (rt : runtime) (E : env)
    (q : string) (limit : option string) (w : world)
    (resp : Http FindingJson) (js : FindingJson) :
  truthy q = true ->
  fetch_completed E (step w) q (pageSize limit) = Ok resp ->
  json resp = Ok js ->
  (forall i, In i (completedItems js) -> endedWithSales i = false) ->
  price_history rt E (Some q) limit w
  = (Ok (Send {| ph_query := q; total_sold := 0; ph_stats := None; ph_items := [] |}),
     tick w).
Proof.
  intros Hq Hfetch Hjson Hnone.
  unfold price_history, try_catch, bind, await, lift. rewrite Hq.
  cbn zeta. rewrite Hfetch, Hjson, (filter_none _ _ Hnone). reflexivity.
Qed.

Lemma price_history_no_sales_witness :
  price_history sampleRuntime (sampleEnv {| itemSummaries := Undefined |} noCompleted)
                (Some "abbey road") None initialWorld
  = (Ok (Send {| ph_query := "abbey road"; total_sold := 0; ph_stats := None; ph_items := [] |}),
     tick initialWorld).
Proof.
  eapply price_history_no_sales.
  - reflexivity.
  - reflexivity.
  - reflexivity.
  - intros i [].
Defined.

(** ** Fan-out loops *)

Section FanOut.
Context (rt : runtime) (E : env).

Lemma fetchSold_run (kw : string) (w : world) :
  fetchSold rt E kw w = (soldAt rt E (step w) kw, tick w).
Proof.
  unfold fetchSold, soldAt, bind, await, lift, ret.
  destruct (fetch_completed E (step w) kw "120") as [resp|e]; [|reflexivity].
  destruct (json resp); reflexivity.
Qed.

Lemma fetchAll_cons (kw : string) (uniq : list string) (combined : list SoldRecord) (w : world) :
  fetchAll rt E (kw :: uniq) combined w =
  match soldAt rt E (step w) kw with
  | Ok sold => fetchAll rt E uniq (combined ++ sold) (tick w)
  | Throw e => (Throw e, tick w)
  end.
Proof.
  cbn [fetchAll]. unfold bind at 1. rewrite fetchSold_run.
  destruct (soldAt rt E (step w) kw); reflexivity.
Qed.

(** A failed fetch for any one variant makes the whole loop throw. *)
Lemma fetchAll_throws (uniq : list string) (combined : list SoldRecord) (w : world)
    (i : nat) (kw : string) (e : error) :
  uniq !! i = Some kw ->
  soldAt rt E (step w + i) kw = Throw e ->
  exists e' w', fetchAll rt E uniq combined w = (Throw e', w').
Proof.
  revert combined w i. induction uniq as [|k uniq IH]; intros combined w i Hi He.
  - discriminate.
  - rewrite fetchAll_cons. destruct i as [|i]; cbn in Hi.
    + injection Hi as ->. rewrite Nat.add_0_r in He. rewrite He. eauto.
    + destruct (soldAt rt E (step w) k) as [sold|e0]; [|eauto].
      apply (IH _ (tick w) i); [exact Hi|].
      cbn [tick step]. replace (S (step w) + i)%nat with (step w + S i)%nat by lia.
      exact He.
Qed.

(** When the loop completes, every variant was fetched and its records
    are part of the merged list. *)
Lemma fetchAll_ok (uniq : list string) (combined merged : list SoldRecord) (w w' : world) :
  fetchAll rt E uniq combined w = (Ok merged, w') ->
  incl combined merged
  /\ forall i kw, uniq !! i = Some kw ->
                  exists sold, soldAt rt E (step w + i) kw = Ok sold /\ incl sold merged.
Proof.
  revert combined w. induction uniq as [|k uniq IH]; intros combined w H.
  - cbn in H. injection H as <- <-. split; [apply incl_refl|]. intros i kw Hi; discriminate.
  - rewrite fetchAll_cons in H.
    destruct (soldAt rt E (step w) k) as [sold|e0] eqn:Hk; [|discriminate].
    apply IH in H as [Hincl Hrest]. split.
    + intros x Hx. apply Hincl, in_or_app. left; exact Hx.
    + intros [|i] kw Hi; cbn in Hi.
      * injection Hi as <-. exists sold. rewrite Nat.add_0_r. split; [exact Hk|].
        intros x Hx. apply Hincl, in_or_app. right; exact Hx.
      * destruct (Hrest i kw Hi) as (s & Hs & Hin). exists s. split; [|exact Hin].
        cbn [tick step] in Hs.
        replace (step w + S i)%nat with (S (step w) + i)%nat by lia. exact Hs.
Qed.

(** When the loop throws, it is the fetch of one of the variants that
    failed. *)
Lemma fetchAll_throw_inv (uniq : list string) (combined : list SoldRecord)
    (w w' : world) (e : error) :
  fetchAll rt E uniq combined w = (Throw e, w') ->
  exists i kw, uniq !! i = Some kw /\ soldAt rt E (step w + i) kw = Throw e.
Proof.
  revert combined w. induction uniq as [|k uniq IH]; intros combined w H.
  - discriminate.
  - rewrite fetchAll_cons in H.
    destruct (soldAt rt E (step w) k) as [sold|e0] eqn:Hk.
    + apply IH in H as (i & kw & Hi & He). exists (S i), kw. split; [exact Hi|].
      cbn [tick step] in He.
      replace (step w + S i)%nat with (S (step w) + i)%nat by lia. exact He.
    + injection H as <- <-. exists 0%nat, k. split; [reflexivity|].
      rewrite Nat.add_0_r. exact Hk.
Qed.

Lemma chart_data_unfold (q : string) (w : world) :
  truthy q = true ->
  chart_data rt E (Some q) w =
  match fetchAll rt E (Expand.uniq (Expand.expansions q)) [] w with
  | (Ok combined, w1) =>
      match chartOf E q (Expand.uniq (Expand.expansions q)) combined w1 with
      | (Ok r, w2) => (Ok r, w2)
      | (Throw e, w2) => (Ok (Status500 e), w2)
      end
  | (Throw e, w1) => (Ok (Status500 e), w1)
  end.
Proof.
  intros Hq. unfold chart_data, try_catch. rewrite Hq. unfold bind at 1.
  destruct (fetchAll _ _ _ _ w) as [[combined|e] w1]; reflexivity.
Qed.

(** C2 (the code on the chart-data loop).  The loop over the query variants
    has no handler of its own: as soon as the fetch for one variant fails,
    [/chart-data] answers 500 and returns nothing of the other variants. *)
Theorem chart_data_fails_when_one_fetch_fails
    (q : string) (w : world) (i : nat) (kw : string) (e : error) :
  truthy q = true ->
  Expand.uniq (Expand.expansions q) !! i = Some kw ->
  soldAt rt E (step w + i) kw = Throw e ->
  exists e' w', chart_data rt E (Some q) w = (Ok (Status500 e'), w').
Proof.
  intros Hq Hi He. rewrite chart_data_unfold by exact Hq.
  destruct (fetchAll_throws _ [] w i kw e Hi He) as (e' & w' & ->). eauto.
Qed.

(** The trending loop does isolate failures: one iteration never throws,
    and leaves [found] as it was when its search fails. *)
Lemma trending_step_total (country : string) (found : list RawItem) (q : string) (w : world) :
  exists found' w',
    trending_step E country found q w = (Ok found', w')
    /\ (found' = found
        \/ exists js, found' = found ++ List.filter isVinyl (or_nil (itemSummaries js))).
Proof.
  unfold trending_step, try_catch. unfold bind at 1.
  destruct (ebaySearch E q country _ w) as [[js|e] w1]; cbn; eauto 6.
Qed.

Lemma trending_step_skips (country : string) (found : list RawItem) (q : string)
    (w w1 : world) (e : error) :
  ebaySearch E q country "&limit=50&sort=BEST_MATCH" w = (Throw e, w1) ->
  trending_step E country found q w = (Ok found, w1).
Proof.
  intros H. unfold trending_step, try_catch. unfold bind at 1. rewrite H. reflexivity.
Qed.

Lemma trending_loop_total (country : string) (queries : list string)
    (found : list RawItem) (w : world) :
  exists found' w', trending_loop E country queries found w = (Ok found', w').
Proof.
  revert found w. induction queries as [|q queries IH]; intros found w.
  - cbn. unfold ret. eauto.
  - cbn [trending_loop]. unfold bind at 1.
    destruct (trending_step_total country found q w) as (f1 & w1 & -> & _).
    apply IH.
Qed.

Lemma mapM_enrich_total (items : list RawItem) (w : world) :
  exists enriched w', mapM (enrich rt E) items w = (Ok enriched, w').
Proof.
  revert w. induction items as [|it items IH]; intros w.
  - cbn. unfold ret. eauto.
  - cbn [mapM]. unfold bind at 1. unfold enrich at 1. unfold bind at 1, ask, ret.
    unfold bind at 1. destruct (IH (tick w)) as (ys & w' & ->). eauto.
Qed.

(** [/vinyl-trending] always answers with a body, whatever the searches do. *)
Lemma vinyl_trending_always_sends (country limit : option string) (w : world) :
  exists body w', vinyl_trending rt E country limit w = (Ok (Send body), w').
Proof.
  unfold vinyl_trending, try_catch. cbn zeta. unfold bind at 1.
  destruct (trending_loop_total (default "US" country) trending_queries [] w)
    as (found & w1 & ->).
  unfold bind at 1.
  destruct (mapM_enrich_total (dedupByTitle found) w1) as (en & w2 & ->).
  unfold ret. eauto.
Qed.

End FanOut.

Lemma chart_data_fails_when_one_fetch_fails_witness :
  exists e' w',
    chart_data sampleRuntime
      (sampleEnv {| itemSummaries := Undefined |} (unreachableFor "abbey road lp"))
      (Some "abbey road") initialWorld
    = (Ok (Status500 e'), w').
Proof.
  apply (chart_data_fails_when_one_fetch_fails sampleRuntime _ "abbey road" initialWorld
           5 "abbey road lp" (FetchFailed "network")).
  - reflexivity.
  - vm_compute. reflexivity.
  - reflexivity.
Defined.

(** ** Chart data: records without a usable end time *)

Lemma dedupSold_invalid (l : list SoldRecord) (m : list ((Z * number) * SoldRecord)) :
  (exists r, In r l /\ sr_date r = InvalidDate) ->
  dedupSold l m = Throw (RangeError "Invalid time value").
Proof.
  revert m. induction l as [|x l IH]; intros m (r & Hin & Hr).
  - destruct Hin.
  - cbn [dedupSold]. unfold soldKey. destruct (sr_date x) as [|ms] eqn:Hx; [reflexivity|].
    apply IH. exists r. split; [|exact Hr].
    destruct Hin as [->|Hin]; [congruence | exact Hin].
Qed.

Lemma chartOf_invalid (E : env) (q : string) (uniq : list string)
    (combined : list SoldRecord) (w : world) :
  (exists r, In r combined /\ sr_date r = InvalidDate) ->
  chartOf E q uniq combined w = (Throw (RangeError "Invalid time value"), w).
Proof.
  intros H. unfold chartOf, bind, lift. rewrite (dedupSold_invalid _ _ H). reflexivity.
Qed.

(** A listing whose end time is missing gives Invalid Date. *)
Lemma toSoldRecord_missing_endTime (rt : runtime) (it : FindingItem) :
  opt_head (opt_chain (opt_head (listingInfo it)) endTime) = Undefined ->
  sr_date (toSoldRecord rt it) = InvalidDate.
Proof. unfold toSoldRecord; cbn. intros ->. reflexivity. Qed.

(** A listing whose end time does not parse gives Invalid Date. *)
Lemma toSoldRecord_unparseable_endTime (rt : runtime) (it : FindingItem) (s : string) :
  opt_head (opt_chain (opt_head (listingInfo it)) endTime) = Val s ->
  DateParse rt s = InvalidDate ->
  sr_date (toSoldRecord rt it) = InvalidDate.
Proof. unfold toSoldRecord; cbn. intros -> H. exact H. Qed.

(** C9. If the answer for some query variant holds a completed sale whose
    end time is missing or does not parse (its date is Invalid Date), then
    [/chart-data] answers 500 for the whole request: no chart is sent and
    the record is not skipped.  When every variant was fetched, the error
    is the [RangeError] that [toISOString] throws on Invalid Date. *)
Theorem chart_data_fails_on_invalid_date (rt : runtime) (E : env)
    (q : string) (w : world) (i : nat) (kw : string)
    (resp : Http FindingJson) (js : FindingJson) (it : FindingItem) :
  truthy q = true ->
  Expand.uniq (Expand.expansions q) !! i = Some kw ->
  fetch_completed E (step w + i) kw "120" = Ok resp ->
  json resp = Ok js ->
  In it (completedItems js) ->
  endedWithSales it = true ->
  sr_date (toSoldRecord rt it) = InvalidDate ->
  exists e w',
    chart_data rt E (Some q) w = (Ok (Status500 e), w')
    /\ ((forall j kw', Expand.uniq (Expand.expansions q) !! j = Some kw' ->
                       exists sold, soldAt rt E (step w + j) kw' = Ok sold) ->
        e = RangeError "Invalid time value").
Proof.
  intros Hq Hi Hfetch Hjson Hin Hsold Hdate.
  rewrite chart_data_unfold by exact Hq.
  destruct (fetchAll rt E _ [] w) as [[combined|e] w1] eqn:Hall.
  - apply fetchAll_ok in Hall as [_ Hall].
    destruct (Hall i kw Hi) as (sold & Hs & Hincl).
    unfold soldAt in Hs. rewrite Hfetch, Hjson in Hs. injection Hs as <-.
    rewrite chartOf_invalid; [eauto|].
    exists (toSoldRecord rt it). split; [|exact Hdate].
    apply Hincl, in_map, filter_In. split; assumption.
  - exists e, w1. split; [reflexivity|]. intros Hok.
    apply fetchAll_throw_inv in Hall as (j & kw' & Hj & He).
    destruct (Hok j kw' Hj) as (sold & Hs). congruence.
Qed.

Lemma chart_data_fails_on_invalid_date_witness :
  let E := sampleEnv {| itemSummaries := Undefined |}
             (completedWith [soldListing (Val "10") Undefined]) in
  exists e w',
    chart_data sampleRuntime E (Some "abbey road") initialWorld = (Ok (Status500 e), w')
    /\ ((forall j kw', Expand.uniq (Expand.expansions "abbey road") !! j = Some kw' ->
                       exists sold, soldAt sampleRuntime E (step initialWorld + j) kw' = Ok sold) ->
        e = RangeError "Invalid time value").
Proof.
  cbn zeta.
  eapply (chart_data_fails_on_invalid_date sampleRuntime _ "abbey road" initialWorld
            0 "abbey road" _ _ (soldListing (Val "10") Undefined)).
  - reflexivity.
  - vm_compute. reflexivity.
  - reflexivity.
  - reflexivity.
  - left. reflexivity.
  - reflexivity.
  - reflexivity.
Defined.

(** With every fetch answering, the failure is the [RangeError] of
    [toISOString]. *)
Example chart_data_invalid_date_run :
  fst (chart_data sampleRuntime
         (sampleEnv {| itemSummaries := Undefined |}
                    (completedWith [soldListing (Val "10") (Val ["2024-01-01T00:00:00.000Z"]);
                                    soldListing (Val "20") (Val ["not a date"])]))
         (Some "abbey road") initialWorld)
  = Ok (Status500 (RangeError "Invalid time value")).
Proof. vm_compute. reflexivity. Qed.

(** ** Order on numbers *)

Lemma ltb_asym (a b : number) : Num.ltb a b = true -> Num.ltb b a = false.
Proof.
  destruct a as [| | |p], b as [| | |q]; cbn; try discriminate; try reflexivity.
  rewrite Qc_ltb_lt, Qc_ltb_ge. apply Qclt_le_weak.
Qed.

(** The comparator [(a, b) => a - b] is positive exactly when [b < a]. *)
Lemma sub_positive (a b : number) :
  Num.gtb (a - b)%num (Num.of_Z 0) = Num.ltb b a.
Proof.
  destruct a as [| | |p], b as [| | |q]; try reflexivity.
  cbn. apply eq_true_iff_eq. rewrite !Qc_ltb_lt, Qc_of_Z_0.
  rewrite (Qclt_minus_iff q p). reflexivity.
Qed.

Lemma le_of_not_lt (a b : number) :
  a <> NaN -> b <> NaN -> Num.ltb b a = false -> Num.le a b.
Proof.
  unfold Num.le, Num.geb. intros Ha Hb H.
  destruct a, b; try congruence; try reflexivity; rewrite H; reflexivity.
Qed.

Lemma le_trans (a b c : number) : Num.le a b -> Num.le b c -> Num.le a c.
Proof.
  unfold Num.le.
  destruct a as [| | |p], b as [| | |q], c as [| | |r]; cbn;
    try discriminate; try reflexivity.
  rewrite !negb_true_iff, !Qc_ltb_ge. intros H1 H2. exact (Qcle_trans _ _ _ H1 H2).
Qed.

Lemma le_not_NaN (a b : number) : Num.le a b -> a <> NaN /\ b <> NaN.
Proof. unfold Num.le. destruct a, b; cbn; intros H; split; congruence. Qed.

(** ** Sorting *)

Section SortFacts.
Context {A : Type} (cmp : A -> A -> number).

Hypothesis cmp_asym :
  forall a b, Num.gtb (cmp a b) (Num.of_Z 0) = true ->
              Num.gtb (cmp b a) (Num.of_Z 0) = false.

Lemma sort_insert_perm (x : A) (s : list A) :
  Permutation (x :: s) (sort_insert cmp x s).
Proof.
  induction s as [|y s IH]; cbn [sort sort_insert]; [reflexivity|].
  destruct (Num.gtb (cmp x y) (Num.of_Z 0)); [|reflexivity].
  rewrite perm_swap. constructor. exact IH.
Qed.

Lemma sort_perm (l : list A) : Permutation l (sort cmp l).
Proof.
  induction l as [|x l IH]; cbn [sort sort_insert]; [constructor|].
  rewrite <- sort_insert_perm. constructor. exact IH.
Qed.

Lemma sort_insert_hd (R : A -> A -> Prop) (y x : A) (s : list A) :
  R y x -> HdRel R y s -> HdRel R y (sort_insert cmp x s).
Proof.
  intros Hyx Hs. destruct s as [|z s]; cbn [sort sort_insert]; [constructor; exact Hyx|].
  destruct (Num.gtb (cmp x z) (Num.of_Z 0)); constructor; [|exact Hyx].
  inversion Hs; assumption.
Qed.

Lemma sort_insert_sorted (x : A) (s : list A) :
  Sorted (inOrder cmp) s -> Sorted (inOrder cmp) (sort_insert cmp x s).
Proof.
  induction s as [|y s IH]; intros Hs; cbn [sort sort_insert].
  - repeat constructor.
  - destruct (Num.gtb (cmp x y) (Num.of_Z 0)) eqn:Hxy.
    + inversion Hs as [|? ? Hs' Hhd]; subst. constructor; [apply IH; exact Hs'|].
      apply sort_insert_hd; [|exact Hhd]. apply cmp_asym; exact Hxy.
    + constructor; [exact Hs|]. constructor. exact Hxy.
Qed.

Lemma sort_sorted (l : list A) : Sorted (inOrder cmp) (sort cmp l).
Proof.
  induction l as [|x l IH]; cbn [sort sort_insert]; [constructor|].
  apply sort_insert_sorted; exact IH.
Qed.

End SortFacts.

Lemma Sorted_impl {A} (P : A -> Prop) (R S : A -> A -> Prop) (l : list A) :
  (forall a b, P a -> P b -> R a b -> S a b) ->
  Forall P l -> Sorted R l -> Sorted S l.
Proof.
  intros HRS HP Hs. induction Hs as [|a l Hs IH Hhd]; [constructor|].
  inversion HP as [|? ? Pa Pl]; subst. constructor; [apply IH; exact Pl|].
  destruct Hhd as [|b l Hab]; constructor.
  inversion Pl; subst. apply HRS; assumption.
Qed.

Lemma sortAscending_perm (l : list number) : Permutation l (sortAscending l).
Proof. apply sort_perm. Qed.

Lemma sortAscending_sorted (l : list number) :
  Sorted (fun a b => Num.ltb b a = false) (sortAscending l).
Proof.
  unfold sortAscending.
  eapply Sorted_impl with (P := fun _ => True);
    [| apply Forall_forall; auto | apply sort_sorted].
  - intros a b _ _ H. unfold inOrder in H. rewrite sub_positive in H. exact H.
  - intros a b. rewrite !sub_positive. apply ltb_asym.
Qed.

Lemma sortAscending_strongly_sorted (l : list number) :
  Forall (fun p => p <> NaN) l -> StronglySorted Num.le (sortAscending l).
Proof.
  intros Hl. apply Sorted_StronglySorted.
  - intros a b c. apply le_trans.
  - eapply Sorted_impl with (P := fun p => p <> NaN);
      [| | apply sortAscending_sorted].
    + intros a b Ha Hb H. apply le_of_not_lt; assumption.
    + eapply Permutation_Forall; [apply sortAscending_perm | exact Hl].
Qed.

(** ** Price history: the median *)

(** Closed equations between numbers: evaluate both sides, then compare the
    rationals. *)
Ltac num_refl :=
  vm_compute;
  first [ reflexivity
        | apply (f_equal Fin); apply Qc_is_canon; reflexivity ].



Lemma sortAscending_length (l : list number) : length (sortAscending l) = length l.
Proof. symmetry. apply Permutation_length, sortAscending_perm. Qed.



(** The handler reports [priceStats] of the retained sales. *)
Lemma price_history_sales (rt : runtime) (E : env)
    (q : string) (limit : option string) (w : world)
    (resp : Http FindingJson) (js : FindingJson) :
  truthy q = true ->
  fetch_completed E (step w) q (pageSize limit) = Ok resp ->
  json resp = Ok js ->
  List.filter endedWithSales (completedItems js) <> [] ->
  let soldItems := map (toSoldItem rt) (List.filter endedWithSales (completedItems js)) in
  price_history rt E (Some q) limit w
  = (Ok (Send {| ph_query := q;
                 total_sold := length soldItems;
                 ph_stats := Some (priceStats (map si_price soldItems));
                 ph_items := soldItems |}),
     tick w).
Proof.
  intros Hq Hfetch Hjson Hsome soldItems.
  unfold price_history, try_catch, bind, await, lift. rewrite Hq.
  cbn zeta. rewrite Hfetch, Hjson. fold soldItems.
  destruct (List.filter endedWithSales (completedItems js)) eqn:Hf; [congruence|].
  reflexivity.
Qed.

(** The handler on four completed sales at 40, 10, 30 and 20. *)
Example price_history_run :
  let E := sampleEnv {| itemSummaries := Undefined |}
             (completedWith [soldListing (Val "40") Undefined;
                             soldListing (Val "10") Undefined;
                             soldListing (Val "30") Undefined;
                             soldListing (Val "20") Undefined]) in
  exists body w stats,
    price_history sampleRuntime E (Some "abbey road") None initialWorld = (Ok (Send body), w)
    /\ total_sold body = 4%nat
    /\ ph_stats body = Some stats
    /\ median_price stats = Num.of_Z 25
    /\ average_price stats = Num.of_Z 25
    /\ lowest_price stats = Num.of_Z 10
    /\ highest_price stats = Num.of_Z 40.
Proof.
  cbn zeta. eexists _, _, _.
  split; [vm_compute; reflexivity|].
  split; [reflexivity|]. split; [reflexivity|].
  repeat split; num_refl.
Qed.

(** ** First-seen-wins deduplication *)

Section KeepFirstFacts.
Context {K V : Type} `{EqDecision K} (key : V -> K).
Implicit Types (m : list (K * V)) (l : list V) (seen : list K).

Lemma map_has_spec (k : K) m : map_has k m = true <-> k ∈ map fst m.
Proof.
  unfold map_has. rewrite existsb_exists, list_elem_of_In, in_map_iff.
  split; intros (kv & H1 & H2); exists kv.
  - apply bool_decide_eq_true in H2. auto.
  - split; [exact H2 | apply bool_decide_eq_true; exact H1].
Qed.

(** The insertion-ordered map of the handlers holds exactly the elements
    [keepFirst] keeps, in the same order. *)
Lemma fold_map_set_keepFirst l m :
  fold_left (fun m x => map_set_if_new m (key x) x) l m
  = m ++ map (fun x => (key x, x)) (keepFirst key (map fst m) l).
Proof.
  revert m. induction l as [|x l IH]; intros m; cbn [fold_left keepFirst].
  - cbn. rewrite app_nil_r. reflexivity.
  - unfold map_set_if_new at 2.
    destruct (map_has (key x) m) eqn:Hhas.
    + apply map_has_spec in Hhas. rewrite bool_decide_eq_true_2 by exact Hhas. apply IH.
    + assert (Hnot : key x ∉ map fst m).
      { intros Hin. apply map_has_spec in Hin. congruence. }
      rewrite bool_decide_eq_false_2 by exact Hnot.
      rewrite IH, map_app. cbn. rewrite <- app_assoc. reflexivity.
Qed.

Lemma map_values_fold_keepFirst l :
  map_values (fold_left (fun m x => map_set_if_new m (key x) x) l []) = keepFirst key [] l.
Proof.
  rewrite fold_map_set_keepFirst. cbn. unfold map_values.
  rewrite map_map. cbn. apply map_id.
Qed.

Lemma keepFirst_sublist seen l : sublist (keepFirst key seen l) l.
Proof.
  revert seen. induction l as [|x l IH]; intros seen; cbn; [constructor|].
  case_bool_decide; [apply sublist_cons | apply sublist_skip]; apply IH.
Qed.

(** An element is kept exactly when it stands at the first occurrence of a
    key that was not seen before. *)
Lemma keepFirst_first seen l (x : V) :
  x ∈ keepFirst key seen l <->
  exists pre post, l = pre ++ x :: post
                   /\ (key x ∉ seen)
                   /\ (forall y, y ∈ pre -> key y <> key x).
Proof.
  revert seen. induction l as [|x0 l IH]; intros seen; cbn [keepFirst].
  - split; [intros H; inversion H|].
    intros (pre & post & H & _). destruct pre; discriminate.
  - case_bool_decide as Hseen.
    + rewrite IH. split.
      * intros (pre & post & -> & Hx & Hpre). exists (x0 :: pre), post.
        split; [reflexivity|]. split; [exact Hx|].
        intros y [->|Hy]%elem_of_cons; [congruence | auto].
      * intros (pre & post & Hl & Hx & Hpre). destruct pre as [|p pre]; cbn in Hl.
        -- injection Hl as -> ->. contradiction.
        -- injection Hl as -> ->. exists pre, post. split; [reflexivity|].
           split; [exact Hx|]. intros y Hy. apply Hpre. right; exact Hy.
    + rewrite elem_of_cons, IH. split.
      * intros [->|(pre & post & -> & Hx & Hpre)].
        -- exists [], l. split; [reflexivity|]. split; [exact Hseen|].
           intros y Hy; inversion Hy.
        -- apply not_elem_of_app in Hx as [Hx Hx0].
           exists (x0 :: pre), post. split; [reflexivity|]. split; [exact Hx|].
           intros y [->|Hy]%elem_of_cons; [|auto].
           intros Heq. apply Hx0. rewrite Heq. left.
      * intros (pre & post & Hl & Hx & Hpre). destruct pre as [|p pre]; cbn in Hl.
        -- injection Hl as -> ->. left; reflexivity.
        -- injection Hl as -> ->. right. exists pre, post. split; [reflexivity|]. split.
           ++ apply not_elem_of_app. split; [exact Hx|].
              intros Heq%list_elem_of_singleton.
              apply (Hpre p); [left | symmetry; exact Heq].
           ++ intros y Hy. apply Hpre. right; exact Hy.
Qed.

Lemma keepFirst_fresh seen l (x : V) : x ∈ keepFirst key seen l -> key x ∉ seen.
Proof. rewrite keepFirst_first. intros (_ & _ & _ & H & _). exact H. Qed.

Lemma keepFirst_NoDup seen l : NoDup (map key (keepFirst key seen l)).
Proof.
  revert seen. induction l as [|x l IH]; intros seen; cbn [keepFirst]; [constructor|].
  case_bool_decide; [apply IH|]. cbn. constructor; [|apply IH].
  intros Hin. apply list_elem_of_In, in_map_iff in Hin as (y & Hy & Hin).
  apply list_elem_of_In, keepFirst_fresh in Hin.
  apply Hin, elem_of_app. right. rewrite Hy. left.
Qed.

End KeepFirstFacts.

(** ** Lowest and highest of a series *)

Lemma le_refl (a : number) : a <> NaN -> Num.le a a.
Proof.
  unfold Num.le. destruct a as [| | |p]; cbn; try congruence; try reflexivity.
  intros _. rewrite negb_true_iff, Qc_ltb_ge. apply Qcle_refl.
Qed.

Lemma le_total (a b : number) : a <> NaN -> b <> NaN -> Num.le a b \/ Num.le b a.
Proof.
  intros Ha Hb. destruct (Num.ltb b a) eqn:H.
  - right. apply le_of_not_lt; [exact Hb | exact Ha | apply ltb_asym; exact H].
  - left. apply le_of_not_lt; assumption.
Qed.







(** ** Chart data: deduplication, order and windows *)

Lemma geb_of_Z (a b : Z) : Num.geb (Num.of_Z a) (Num.of_Z b) = (b <=? a)%Z.
Proof.
  cbn. unfold Num.Qc_ltb. rewrite negb_involutive.
  unfold Qle_bool; cbn. rewrite !Z.mul_1_r. reflexivity.
Qed.








Lemma makeSummary_none (prices : list number) : makeSummary prices = None <-> prices = [].
Proof. destruct prices; cbn; split; congruence. Qed.





(** Three sales at 10, 10 and 11: the mean 10.333... is reported as
    10.33. *)
Example makeSummary_rounds_the_mean :
  exists s, makeSummary (map Num.of_Z [10; 10; 11]%Z) = Some s
            /\ count s = 3%nat
            /\ average s = Fin (Q2Qc (1033 # 100)).
Proof.
  eexists. split; [reflexivity|]. split; [reflexivity | num_refl].
Qed.

(** The whole handler: every variant of the query returns the same four
    sales, which are merged, reduced to four records and summarised. *)
Example chart_data_run :
  let E := sampleEnv {| itemSummaries := Undefined |}
             (completedWith
                [soldListing (Val "10") (Val ["2024-01-26T00:00:00.000Z"]);
                 soldListing (Val "20") (Val ["2023-12-27T00:00:00.000Z"]);
                 soldListing (Val "30") (Val ["2023-11-27T00:00:00.000Z"]);
                 soldListing (Val "40") (Val ["2023-10-28T00:00:00.000Z"])]) in
  exists body w s30 s60 s90,
    chart_data sampleRuntime E (Some "abbey road") initialWorld = (Ok (Send body), w)
    /\ total_sold_combined body = Some 4%nat
    /\ chart body = {| d30 := Some s30; d60 := Some s60; d90 := Some s90 |}
    /\ (count s30 = 1%nat /\ average s30 = Num.of_Z 10)
    /\ (count s60 = 2%nat /\ average s60 = Num.of_Z 15)
    /\ (count s90 = 3%nat /\ average s90 = Num.of_Z 20).
Proof.
  cbn zeta. eexists _, _, _, _, _.
  split; [vm_compute; reflexivity|].
  split; [reflexivity|]. split; [reflexivity|].
  repeat split; num_refl.
Qed.

(** * Further properties of the code *)

(** ** Marketplace map *)

Lemma upper_lower_char (c : ascii) :
  Market.upper_char (Str.lower_char c) = Market.upper_char c.
Proof. destruct c as [[] [] [] [] [] [] [] []]; reflexivity. Qed.

Lemma upper_upper_char (c : ascii) :
  Market.upper_char (Market.upper_char c) = Market.upper_char c.
Proof. destruct c as [[] [] [] [] [] [] [] []]; reflexivity. Qed.

Lemma toUpperCase_toLowerCase (s : string) :
  Market.toUpperCase (Str.toLowerCase s) = Market.toUpperCase s.
Proof.
  induction s as [|c s IH]; cbn; [reflexivity|].
  rewrite upper_lower_char, IH. reflexivity.
Qed.

Lemma toUpperCase_idem (s : string) :
  Market.toUpperCase (Market.toUpperCase s) = Market.toUpperCase s.
Proof.
  induction s as [|c s IH]; cbn; [reflexivity|].
  rewrite upper_upper_char, IH. reflexivity.
Qed.

Lemma market_lookup_cases (k : string) (m : list (string * string)) :
  (Market.lookup k m = Undefined /\ ~ In k (map fst m))
  \/ (exists v, Market.lookup k m = Val v /\ In (k, v) m).
Proof.
  induction m as [|[k' v] m IH]; cbn; [left; split; [reflexivity | tauto]|].
  destruct (String.eqb k k') eqn:Hk.
  - apply String.eqb_eq in Hk as ->. right. exists v. split; [reflexivity | left; reflexivity].
  - apply String.eqb_neq in Hk. destruct IH as [[-> Hn] | (v' & -> & Hin)].
    + left. split; [reflexivity|]. intros [H|H]; [congruence | tauto].
    + right. exists v'. split; [reflexivity | right; exact Hin].
Qed.

(** X1. For a country made of ASCII characters, [resolveMarketplace]
    answers one of the eight marketplace ids, does not distinguish upper
    from lower case, and answers EBAY_US for every code outside the
    table. *)
Theorem resolveMarketplace_range_case_default (country : string) :
  isAscii country = true ->
  In (Market.resolveMarketplace country) MARKETPLACES
  /\ Market.resolveMarketplace (Str.toLowerCase country) = Market.resolveMarketplace country
  /\ Market.resolveMarketplace (Market.toUpperCase country) = Market.resolveMarketplace country
  /\ (~ In (Market.toUpperCase country) (map fst Market.MARKET_MAP) ->
      Market.resolveMarketplace country = "EBAY_US").
Proof.
  intros _. split; [|split; [|split]].
  - unfold Market.resolveMarketplace.
    destruct (market_lookup_cases (Market.toUpperCase country) Market.MARKET_MAP)
      as [[-> _] | (v & -> & Hin)].
    + cbn. auto.
    + cbn in Hin. unfold MARKETPLACES.
      repeat (destruct Hin as [[= _ <-]|Hin]; [cbn; tauto|]). destruct Hin.
  - unfold Market.resolveMarketplace. rewrite toUpperCase_toLowerCase. reflexivity.
  - unfold Market.resolveMarketplace. rewrite toUpperCase_idem. reflexivity.
  - intros Hn. unfold Market.resolveMarketplace.
    destruct (market_lookup_cases (Market.toUpperCase country) Market.MARKET_MAP)
      as [[-> _] | (v & _ & Hin)]; [reflexivity|].
    exfalso. apply Hn. apply (in_map fst) in Hin. exact Hin.
Qed.

Lemma resolveMarketplace_range_case_default_witness :
  Market.resolveMarketplace (Str.toLowerCase "De") = Market.resolveMarketplace "De"
  /\ Market.resolveMarketplace "jp" = "EBAY_US".
Proof.
  split.
  - apply (resolveMarketplace_range_case_default "De"). reflexivity.
  - apply (resolveMarketplace_range_case_default "jp"); [reflexivity|].
    cbn. intros H. repeat (destruct H as [H|H]; [discriminate|]). exact H.
Defined.

(** ** Vinyl filtering *)

Lemma lower_lower_char (c : ascii) : Str.lower_char (Str.lower_char c) = Str.lower_char c.
Proof. destruct c as [[] [] [] [] [] [] [] []]; reflexivity. Qed.

Lemma toLowerCase_idem (s : string) : Str.toLowerCase (Str.toLowerCase s) = Str.toLowerCase s.
Proof.
  induction s as [|c s IH]; cbn; [reflexivity|]. rewrite lower_lower_char, IH. reflexivity.
Qed.

Lemma toLowerCase_upper (s : string) :
  Str.toLowerCase (Market.toUpperCase s) = Str.toLowerCase s.
Proof.
  induction s as [|c s IH]; cbn; [reflexivity|]. rewrite IH. f_equal.
  destruct c as [[] [] [] [] [] [] [] []]; reflexivity.
Qed.

(** X2. On titles made of ASCII characters [isVinyl] looks at the title
    only and ignores its letter case: two items whose titles agree up to
    case get the same verdict, whatever their other properties are; in
    particular the upper-cased and the lower-cased title are classified
    like the title itself. *)
Theorem isVinyl_title_only_case_blind :
  (forall (a b : RawItem) (s t : string),
      isAscii s = true -> isAscii t = true ->
      title a = Val s -> title b = Val t ->
      Str.toLowerCase s = Str.toLowerCase t ->
      isVinyl a = isVinyl b)
  /\ (forall (it : RawItem) (s : string),
         isAscii s = true ->
         title it = Val s ->
         isVinyl (titled (Market.toUpperCase s)) = isVinyl it
         /\ isVinyl (titled (Str.toLowerCase s)) = isVinyl it).
Proof.
  assert (H : forall (a b : RawItem) (s t : string),
             title a = Val s -> title b = Val t ->
             Str.toLowerCase s = Str.toLowerCase t -> isVinyl a = isVinyl b).
  { intros a b s t Ha Hb Hst. rewrite !isVinyl_unfold, Ha, Hb, Hst. reflexivity. }
  split; [intros a b s t _ _; apply H|].
  intros it s _ Ht. split.
  - apply (H _ _ (Market.toUpperCase s) s); [reflexivity | exact Ht | apply toLowerCase_upper].
  - apply (H _ _ (Str.toLowerCase s) s); [reflexivity | exact Ht | apply toLowerCase_idem].
Qed.

Lemma isVinyl_title_only_case_blind_witness :
  isVinyl (titled "ABBEY ROAD LP") = isVinyl (titled "Abbey Road lp").
Proof.
  destruct isVinyl_title_only_case_blind as [H _].
  apply (H _ _ "ABBEY ROAD LP" "Abbey Road lp"); reflexivity.
Defined.

(** ** Normalizer *)

Lemma or_else_null_shape {A} `{Truthy A} (x : field A) :
  or_else x Null = Null \/ exists a, or_else x Null = Val a /\ truthy a = true.
Proof.
  unfold or_else. destruct x as [| |a]; cbn; auto.
  destruct (truthy a) eqn:Ha; eauto.
Qed.

(** X3. In a canonical item the artist, the price, the image and the
    condition are never undefined and never an empty string: each is null
    or a non-empty value.  When the raw item has a first thumbnail with a
    non-empty URL, that URL is the image, whatever [image] holds. *)
Theorem normalizeVinyl_never_undefined_or_empty (it : RawItem) :
  let n := normalizeVinyl it in
  (c_artist n = Null \/ exists a, c_artist n = Val a /\ a <> "")
  /\ (c_price n = Null \/ exists p, c_price n = Val p)
  /\ (c_image n = Null \/ exists u, c_image n = Val u /\ u <> "")
  /\ (c_condition n = Null \/ exists c, c_condition n = Val c /\ c <> "")
  /\ (forall u, is_truthy (opt_chain (opt_head (thumbnailImages it)) imageUrl) = true ->
                opt_chain (opt_head (thumbnailImages it)) imageUrl = Val u ->
                c_image n = Val u).
Proof.
  cbn zeta. unfold normalizeVinyl. cbn [c_artist c_price c_image c_condition].
  assert (Hne : forall a : string, truthy a = true -> a <> "").
  { intros a Ha ->. discriminate. }
  split; [|split; [|split; [|split]]].
  - destruct (or_else_null_shape (or_else (brand it) (titleArtist it)))
      as [->|(a & -> & Ha)]; eauto.
  - destruct (or_else_null_shape (price it)) as [->|(p & -> & _)]; eauto.
  - match goal with |- or_else ?x Null = _ \/ _ =>
      destruct (or_else_null_shape x) as [->|(a & -> & Ha)] end; eauto.
  - destruct (or_else_null_shape (condition it)) as [->|(a & -> & Ha)]; eauto.
  - intros u Ht Hu. rewrite (or_else_truthy _ (opt_chain (image it) imageUrl)) by exact Ht.
    rewrite or_else_truthy by exact Ht. exact Hu.
Qed.

Lemma normalizeVinyl_never_undefined_or_empty_witness :
  c_image (normalizeVinyl
             {| itemId := Undefined; title := Undefined; brand := Undefined;
                price := Undefined;
                thumbnailImages := Val [ {| imageUrl := Val "thumb.jpg" |} ];
                image := Val {| imageUrl := Val "full.jpg" |};
                itemWebUrl := Undefined; condition := Undefined |})
  = Val "thumb.jpg".
Proof.
  eapply normalizeVinyl_never_undefined_or_empty; reflexivity.
Defined.

(** ** Cache memory *)

Section CacheFrame.
Context {V : Type}.
Implicit Types (store : gmap string (CacheEntry V)) (key : string) (v : V).

(** X4. [getCache] never adds or changes an entry and removes at most the
    entry it was asked for: every other key reads the same before and
    after, a missing key gives null and leaves the store as it is, and a
    [setCache] on one key does not change what another key reads. *)
Theorem cache_frame :
  (forall store key now other,
      other <> key -> (getCache now key store).2 !! other = store !! other)
  /\ (forall store key now c,
         (getCache now key store).2 !! key = Some c -> store !! key = Some c)
  /\ (forall store key now,
         store !! key = None -> getCache now key store = (None, store))
  /\ (forall store key other v ttl now now',
         other <> key ->
         (getCache now' other (setCache now key v ttl store)).1
         = (getCache now' other store).1).
Proof.
  split; [|split; [|split]].
  - intros store key now other Hne. unfold getCache.
    destruct (store !! key) as [c|]; [|reflexivity].
    destruct (Num.gtb _ _); [|reflexivity].
    cbn. apply lookup_delete_ne. congruence.
  - intros store key now c. unfold getCache.
    destruct (store !! key) as [c0|] eqn:Hk; cbn; [|congruence].
    destruct (Num.gtb _ _); cbn; [|congruence].
    rewrite lookup_delete_eq. discriminate.
  - intros store key now Hk. unfold getCache. rewrite Hk. reflexivity.
  - intros store key other v ttl now now' Hne. unfold getCache, setCache.
    rewrite lookup_insert_ne by congruence.
    destruct (store !! other) as [c|]; [|reflexivity].
    destruct (Num.gtb _ _); reflexivity.
Qed.

(** X5. An entry is served up to and including the instant of its expiry:
    the comparison is strict, so a read at exactly [now + ttl] still
    returns the value, and one millisecond later it is evicted. *)
Theorem cache_expiry_boundary store key v (ttl now : Z) :
  getCache (now + ttl) key (setCache now key v (Num.of_Z ttl) store)
  = (Some v, setCache now key v (Num.of_Z ttl) store)
  /\ getCache (now + ttl + 1) key (setCache now key v (Num.of_Z ttl) store)
     = (None, delete key store).
Proof.
  assert (Hexp : (Num.of_Z now + Num.of_Z ttl)%num = Num.of_Z (now + ttl)).
  { cbn. apply (f_equal Fin). apply Qc_is_canon. cbn.
    rewrite Qred_correct, inject_Z_plus. reflexivity. }
  unfold setCache. rewrite Hexp. split.
  - apply (getCache_fresh _ key {| val := v; exp := Num.of_Z (now + ttl) |}).
    + apply lookup_insert_eq.
    + cbn [exp]. unfold Num.gtb. cbn. apply Qc_ltb_ge. apply Qcle_refl.
  - rewrite (getCache_expired _ key {| val := v; exp := Num.of_Z (now + ttl) |}).
    + rewrite delete_insert_eq. reflexivity.
    + apply lookup_insert_eq.
    + cbn [exp]. unfold Num.gtb. cbn. apply Qc_ltb_lt.
      unfold Qclt. cbn. rewrite <- Zlt_Qlt. lia.
Qed.

End CacheFrame.

Lemma cache_frame_witness :
  (getCache 5 "b" (setCache 0 "a" 1%nat (Num.of_Z 10) (setCache 0 "b" 2%nat (Num.of_Z 10) ∅))).1
  = (getCache 5 "b" (setCache 0 "b" 2%nat (Num.of_Z 10) ∅)).1.
Proof.
  destruct (@cache_frame nat) as (_ & _ & _ & H).
  apply H. discriminate.
Defined.

(** ** Token management *)

Section TokenProperties.
Context (E : env).

Lemma getAccessToken_run (w : world) :
  getAccessToken E w =
  if tokenValid (clock E (step w)) w
  then (Ok (or_empty (accessToken w)), tick w)
  else
    match fetch_token E (S (step w)) with
    | Throw e => (Throw e, tick (tick w))
    | Ok resp =>
        match json resp with
        | Throw e => (Throw e, tick (tick w))
        | Ok data =>
            if negb (ok resp) || negb (is_truthy (access_token data))
            then (Throw (CannotRefreshToken data), tick (tick w))
            else
              (Ok (or_empty (access_token data)),
               withToken (access_token data)
                 (Num.of_Z (clock E (step w))
                  + (toNumber (expires_in data) - Num.of_Z 60) * Num.of_Z 1000)%num
                 (tick (tick w)))
        end
    end.
Proof.
  unfold getAccessToken, tokenValid, bind, ask, getWorld. cbn [tick accessToken accessTokenExpiresAt].
  destruct (is_truthy (accessToken w) && _); [reflexivity|].
  unfold await. cbn [tick step].
  destruct (fetch_token E (S (step w))) as [resp|e]; [|reflexivity].
  unfold lift. destruct (json resp) as [data|e]; [|reflexivity].
  destruct (negb (ok resp) || _); reflexivity.
Qed.

Lemma truthy_or_empty (x : field string) (s : string) :
  x = Val s -> s <> "" -> is_truthy x = true /\ or_empty x = s.
Proof. intros -> Hs. destruct s; [congruence|]. split; reflexivity. Qed.

Lemma is_truthy_string (x : field string) :
  is_truthy x = true -> x = Val (or_empty x) /\ or_empty x <> "".
Proof.
  destruct x as [| |s]; cbn; try discriminate. destruct s; [discriminate|].
  intros _. split; [reflexivity | discriminate].
Qed.

Lemma getAccessToken_valid (w : world) :
  tokenValid (clock E (step w)) w = true ->
  getAccessToken E w = (Ok (or_empty (accessToken w)), tick w).
Proof. intros H. rewrite getAccessToken_run, H. reflexivity. Qed.

(** X6. While the stored token is non-empty and the clock is before its
    stored expiry, [getAccessToken] returns it after one clock reading:
    the identity endpoint is not called and nothing of the state changes. *)
Theorem getAccessToken_reuses_valid_token (w : world) (tok : string) :
  accessToken w = Val tok -> tok <> "" ->
  Num.ltb (Num.of_Z (clock E (step w))) (accessTokenExpiresAt w) = true ->
  getAccessToken E w = (Ok tok, tick w)
  /\ sameCredential w (tick w)
  /\ cacheStore (tick w) = cacheStore w.
Proof.
  intros Ht Hne Hlt. split; [|repeat split].
  destruct (truthy_or_empty _ _ Ht Hne) as [Htr Hor].
  rewrite getAccessToken_valid, Hor; [reflexivity|].
  unfold tokenValid. rewrite Htr, Hlt. reflexivity.
Qed.

(** X7. A call that throws leaves the stored token and its expiry as they
    were (a failed refresh does not wipe a credential), and no call ever
    changes the cache; a rejected renewal (status not ok, or no
    [access_token] in the body) throws "Cannot refresh token" with the
    body. *)
Theorem getAccessToken_failure_keeps_credential :
  (forall (w w' : world) (e : error),
      getAccessToken E w = (Throw e, w') ->
      sameCredential w w' /\ cacheStore w' = cacheStore w)
  /\ (forall (w w' : world) (r : outcome string),
         getAccessToken E w = (r, w') -> cacheStore w' = cacheStore w)
  /\ (forall (w : world) (resp : Http TokenJson) (data : TokenJson),
         tokenValid (clock E (step w)) w = false ->
         fetch_token E (S (step w)) = Ok resp ->
         json resp = Ok data ->
         ok resp = false \/ is_truthy (access_token data) = false ->
         getAccessToken E w = (Throw (CannotRefreshToken data), tick (tick w))).
Proof.
  split; [|split].
  - intros w w' e. rewrite getAccessToken_run.
    destruct (tokenValid _ w); [discriminate|].
    destruct (fetch_token E (S (step w))) as [resp|e0].
    + destruct (json resp) as [data|e1].
      * destruct (negb (ok resp) || _); [|discriminate].
        intros [= _ <-]. repeat split.
      * intros [= _ <-]. repeat split.
    + intros [= _ <-]. repeat split.
  - intros w w' r. rewrite getAccessToken_run.
    destruct (tokenValid _ w); [intros [= _ <-]; reflexivity|].
    destruct (fetch_token E (S (step w))) as [resp|e0].
    + destruct (json resp) as [data|e1].
      * destruct (negb (ok resp) || _); intros [= _ <-]; reflexivity.
      * intros [= _ <-]; reflexivity.
    + intros [= _ <-]; reflexivity.
  - intros w resp data Hv Hf Hj Hbad. rewrite getAccessToken_run, Hv, Hf, Hj.
    destruct Hbad as [-> | ->]; [reflexivity|]. rewrite orb_true_r. reflexivity.
Qed.

Lemma of_Z_add (a b : Z) : (Num.of_Z a + Num.of_Z b)%num = Num.of_Z (a + b).
Proof.
  cbn. apply (f_equal Fin). apply Qc_is_canon. cbn.
  rewrite Qred_correct, inject_Z_plus. reflexivity.
Qed.

Lemma of_Z_sub (a b : Z) : (Num.of_Z a - Num.of_Z b)%num = Num.of_Z (a - b).
Proof.
  cbn. apply (f_equal Fin). apply Qc_is_canon. cbn.
  rewrite !Qred_correct. unfold Z.sub. rewrite inject_Z_plus, inject_Z_opp. reflexivity.
Qed.

Lemma of_Z_mul (a b : Z) : (Num.of_Z a * Num.of_Z b)%num = Num.of_Z (a * b).
Proof.
  cbn. apply (f_equal Fin). apply Qc_is_canon. cbn.
  rewrite Qred_correct, inject_Z_mult. reflexivity.
Qed.

Lemma ltb_of_Z (a b : Z) : Num.ltb (Num.of_Z a) (Num.of_Z b) = (a <? b)%Z.
Proof.
  cbn. unfold Num.Qc_ltb, Qle_bool; cbn. rewrite !Z.mul_1_r.
  rewrite Z.ltb_antisym. reflexivity.
Qed.

(** X8. A successful renewal stores the new token with the expiry
    [now + (expires_in - 60) * 1000], [now] being the clock reading at the
    start of the call, and leaves the cache alone.  From then on every call
    made while the clock is more than 60 seconds short of the upstream
    life time returns that token without calling the identity endpoint. *)
Theorem getAccessToken_refresh_then_reuse
    (w : world) (resp : Http TokenJson) (data : TokenJson) (tok : string) (secs : Z) :
  tokenValid (clock E (step w)) w = false ->
  fetch_token E (S (step w)) = Ok resp ->
  json resp = Ok data ->
  ok resp = true ->
  access_token data = Val tok -> tok <> "" ->
  expires_in data = Val (Num.of_Z secs) ->
  let now := clock E (step w) in
  let w' := withToken (Val tok) (Num.of_Z (now + (secs - 60) * 1000)) (tick (tick w)) in
  getAccessToken E w = (Ok tok, w')
  /\ (forall w2 : world,
         sameCredential w' w2 ->
         (clock E (step w2) < now + (secs - 60) * 1000)%Z ->
         getAccessToken E w2 = (Ok tok, tick w2)).
Proof.
  intros Hv Hf Hj Hok Ht Hne Hexp now w'.
  destruct (truthy_or_empty _ _ Ht Hne) as [Htr Hor].
  split.
  - rewrite getAccessToken_run, Hv, Hf, Hj, Hok, Htr, Hor. cbn [negb orb].
    rewrite Ht, Hexp. cbn [toNumber]. rewrite of_Z_sub, of_Z_mul, of_Z_add. reflexivity.
  - intros w2 [Htok Hex] Hlt. cbn in Htok, Hex.
    rewrite getAccessToken_valid.
    + rewrite Htok. cbn. destruct tok; [congruence | reflexivity].
    + unfold tokenValid. rewrite Htok, Hex, ltb_of_Z.
      destruct tok; [congruence|]. cbn. apply Z.ltb_lt. exact Hlt.
Qed.

End TokenProperties.

Lemma getAccessToken_reuses_valid_token_witness :
  let E := sampleEnv {| itemSummaries := Undefined |} noCompleted in
  let w := worldWithToken 1706659260000 in
  getAccessToken E w = (Ok "token", tick w)
  /\ sameCredential w (tick w)
  /\ cacheStore (tick w) = cacheStore w.
Proof.
  cbn zeta. apply getAccessToken_reuses_valid_token; [reflexivity | discriminate | reflexivity].
Defined.

Lemma getAccessToken_failure_keeps_credential_witness :
  let E := deniedEnv {| itemSummaries := Undefined |} in
  getAccessToken E initialWorld
  = (Throw (CannotRefreshToken {| access_token := Undefined; expires_in := Undefined |}),
     tick (tick initialWorld)).
Proof.
  cbn zeta.
  destruct (getAccessToken_failure_keeps_credential (deniedEnv {| itemSummaries := Undefined |}))
    as (_ & _ & H).
  eapply H; [reflexivity | reflexivity | reflexivity | left; reflexivity].
Defined.

Lemma getAccessToken_refresh_then_reuse_witness :
  let E := sampleEnv {| itemSummaries := Undefined |} noCompleted in
  let w' := withToken (Val "token") (Num.of_Z (1706659200000 + (7200 - 60) * 1000))
                      (tick (tick initialWorld)) in
  getAccessToken E initialWorld = (Ok "token", w')
  /\ (forall w2 : world,
         sameCredential w' w2 ->
         (clock E (step w2) < 1706659200000 + (7200 - 60) * 1000)%Z ->
         getAccessToken E w2 = (Ok "token", tick w2)).
Proof.
  cbn zeta.
  eapply (getAccessToken_refresh_then_reuse
            (sampleEnv {| itemSummaries := Undefined |} noCompleted) initialWorld);
    try reflexivity.
  discriminate.
Defined.

(** ** Search wrapper *)

Section SearchProperties.
Context (E : env).

Lemma getAccessToken_cache (w w' : world) (r : outcome string) :
  getAccessToken E w = (r, w') -> cacheStore w' = cacheStore w.
Proof.
  rewrite getAccessToken_run.
  destruct (tokenValid _ w); [intros [= _ <-]; reflexivity|].
  destruct (fetch_token E (S (step w))) as [resp|e0].
  - destruct (json resp) as [data|e1].
    + destruct (negb (ok resp) || _); intros [= _ <-]; reflexivity.
    + intros [= _ <-]; reflexivity.
  - intros [= _ <-]; reflexivity.
Qed.

Lemma getCacheM_run (key : string) (w : world) :
  getCacheM E key w =
  match cacheStore w !! key with
  | None => (Ok None, w)
  | Some _ =>
      (Ok (getCache (clock E (step w)) key (cacheStore w)).1,
       withStore (getCache (clock E (step w)) key (cacheStore w)).2 (tick w))
  end.
Proof.
  unfold getCacheM, bind, getWorld.
  destruct (cacheStore w !! key) as [c|]; [|reflexivity].
  unfold ask. destruct (getCache _ key (cacheStore w)) as [r st]. reflexivity.
Qed.

Lemma ebaySearch_unfold (q country extra : string) (w : world) :
  let mkt := Market.resolveMarketplace country in
  let key := cacheKeyOf mkt q extra in
  ebaySearch E q country extra w =
  match getCacheM E key w with
  | (Ok (Some c), w1) => (Ok c, w1)
  | (Ok None, w1) => searchUpstream E key mkt q extra w1
  | (Throw e, w1) => (Throw e, w1)
  end.
Proof.
  cbn zeta. unfold ebaySearch. fold (cacheKeyOf (Market.resolveMarketplace country) q extra).
  unfold bind at 1. destruct (getCacheM E _ w) as [[[c|]|e] w1]; reflexivity.
Qed.

Lemma searchUpstream_run (key mkt q extra : string) (w : world) :
  searchUpstream E key mkt q extra w =
  match getAccessToken E w with
  | (Throw e, w1) => (Throw e, w1)
  | (Ok _, w1) =>
      match fetch_search E (step w1) mkt q extra with
      | Throw e => (Throw e, tick w1)
      | Ok resp =>
          match json resp with
          | Throw e => (Throw e, tick w1)
          | Ok js =>
              if ok resp
              then (Ok js,
                    withStore (setCache (clock E (S (step w1))) key js (Num.of_Z 300000)
                                        (cacheStore w1))
                              (tick (tick w1)))
              else (Throw (EbayError js), tick w1)
          end
      end
  end.
Proof.
  unfold searchUpstream. unfold bind at 1.
  destruct (getAccessToken E w) as [[tok|e] w1]; [|reflexivity].
  unfold bind at 1, await.
  destruct (fetch_search E (step w1) mkt q extra) as [resp|e]; [|reflexivity].
  unfold bind at 1, lift. destruct (json resp) as [js|e]; [|reflexivity].
  destruct (ok resp); reflexivity.
Qed.

Lemma searchUpstream_throw (key mkt q extra : string) (w w' : world) (e : error) :
  searchUpstream E key mkt q extra w = (Throw e, w') -> cacheStore w' = cacheStore w.
Proof.
  rewrite searchUpstream_run.
  destruct (getAccessToken E w) as [[tok|e0] w1] eqn:Htok;
    apply getAccessToken_cache in Htok.
  - destruct (fetch_search E (step w1) mkt q extra) as [resp|e1].
    + destruct (json resp) as [js|e2].
      * destruct (ok resp); [discriminate|]. intros [= _ <-]. exact Htok.
      * intros [= _ <-]. exact Htok.
    + intros [= _ <-]. exact Htok.
  - intros [= _ <-]. exact Htok.
Qed.

Lemma searchUpstream_ok (key mkt q extra : string) (w w' : world) (js : SearchJson) :
  searchUpstream E key mkt q extra w = (Ok js, w') ->
  cacheStore w' !! key
  = Some {| val := js;
            exp := (Num.of_Z (clock E (step w' - 1)) + Num.of_Z 300000)%num |}.
Proof.
  rewrite searchUpstream_run.
  destruct (getAccessToken E w) as [[tok|e0] w1]; [|discriminate].
  destruct (fetch_search E (step w1) mkt q extra) as [resp|e1]; [|discriminate].
  destruct (json resp) as [js'|e2]; [|discriminate].
  destruct (ok resp); [|discriminate].
  intros [= <- <-]. cbn [withStore cacheStore step tick]. unfold setCache.
  rewrite lookup_insert_eq. cbn. rewrite ?Nat.sub_0_r. reflexivity.
Qed.

Lemma withStore_same (w : world) : withStore (cacheStore w) (tick w) = tick w.
Proof. reflexivity. Qed.

Lemma ebaySearch_hit (q country extra : string) (w : world) (c : CacheEntry SearchJson) :
  cacheStore w !! cacheKeyOf (Market.resolveMarketplace country) q extra = Some c ->
  Num.gtb (Num.of_Z (clock E (step w))) (exp c) = false ->
  ebaySearch E q country extra w = (Ok (val c), tick w).
Proof.
  intros Hk Hfresh. rewrite ebaySearch_unfold. cbn zeta.
  rewrite getCacheM_run, Hk, (getCache_fresh _ _ c) by assumption. reflexivity.
Qed.

(** X9. A search whose cache key has an entry that has not expired is
    answered from the cache after one clock reading: neither the
    credential nor the network is touched and the state stays as it was. *)
Theorem ebaySearch_serves_fresh_entry
    (q country extra : string) (w : world) (c : CacheEntry SearchJson) :
  cacheStore w !! cacheKeyOf (Market.resolveMarketplace country) q extra = Some c ->
  Num.gtb (Num.of_Z (clock E (step w))) (exp c) = false ->
  ebaySearch E q country extra w = (Ok (val c), tick w)
  /\ sameCredential w (tick w)
  /\ cacheStore (tick w) = cacheStore w.
Proof.
  intros Hk Hfresh. split; [apply ebaySearch_hit; assumption | repeat split].
Qed.

(** X10. A search that throws never stores anything: every entry the cache
    holds afterwards was there before, unchanged.  An upstream answer with
    an error status throws with the upstream body. *)
Theorem ebaySearch_failure_caches_nothing :
  (forall (q country extra : string) (w w' : world) (e : error),
      ebaySearch E q country extra w = (Throw e, w') ->
      forall k c, cacheStore w' !! k = Some c -> cacheStore w !! k = Some c)
  /\ (forall (q country extra : string) (w w1 : world) (tok : string)
             (resp : Http SearchJson) (js : SearchJson),
         cacheStore w !! cacheKeyOf (Market.resolveMarketplace country) q extra = None ->
         getAccessToken E w = (Ok tok, w1) ->
         fetch_search E (step w1) (Market.resolveMarketplace country) q extra = Ok resp ->
         json resp = Ok js ->
         ok resp = false ->
         ebaySearch E q country extra w = (Throw (EbayError js), tick w1)).
Proof.
  split.
  - intros q country extra w w' e. rewrite ebaySearch_unfold. cbn zeta.
    rewrite getCacheM_run.
    set (key := cacheKeyOf (Market.resolveMarketplace country) q extra).
    destruct (cacheStore w !! key) as [c0|] eqn:Hk.
    + unfold getCache. rewrite Hk.
      destruct (Num.gtb _ (exp c0)); cbn [fst snd]; [|discriminate].
      intros H%searchUpstream_throw k c. rewrite H. cbn [withStore cacheStore].
      intros Hl. destruct (decide (k = key)) as [->|Hne].
      * rewrite lookup_delete_eq in Hl. discriminate.
      * rewrite lookup_delete_ne in Hl by congruence. exact Hl.
    + intros H%searchUpstream_throw k c. rewrite H. auto.
  - intros q country extra w w1 tok resp js Hk Htok Hf Hj Hok.
    rewrite ebaySearch_unfold. cbn zeta.
    rewrite getCacheM_run, Hk, searchUpstream_run, Htok, Hf, Hj, Hok. reflexivity.
Qed.

(** X11. After a search that returns, the cache holds the returned
    response under the request's key, and the same request made again
    while that entry has not expired returns the same response from the
    cache.  When the key was absent before, the new entry expires 300000 ms
    after the clock reading taken when it was stored. *)
Theorem ebaySearch_caches_its_result
    (q country extra : string) (w w' : world) (js : SearchJson) :
  ebaySearch E q country extra w = (Ok js, w') ->
  let key := cacheKeyOf (Market.resolveMarketplace country) q extra in
  exists c,
    cacheStore w' !! key = Some c
    /\ val c = js
    /\ (Num.gtb (Num.of_Z (clock E (step w'))) (exp c) = false ->
        ebaySearch E q country extra w' = (Ok js, tick w'))
    /\ (cacheStore w !! key = None ->
        exp c = Num.of_Z (clock E (step w' - 1) + 300000)).
Proof.
  intros H key.
  assert (Hc : exists c, cacheStore w' !! key = Some c /\ val c = js
                         /\ (cacheStore w !! key = None ->
                             exp c = Num.of_Z (clock E (step w' - 1) + 300000))).
  { rewrite ebaySearch_unfold in H. cbn zeta in H. fold key in H.
    rewrite getCacheM_run in H.
    destruct (cacheStore w !! key) as [c0|] eqn:Hk.
    - unfold getCache in H. rewrite Hk in H.
      destruct (Num.gtb _ (exp c0)); cbn [fst snd] in H.
      + apply searchUpstream_ok in H. eexists. split; [exact H|].
        split; [reflexivity | discriminate].
      + injection H as <- <-. exists c0. cbn [withStore cacheStore].
        split; [exact Hk|]. split; [reflexivity | discriminate].
    - apply searchUpstream_ok in H. eexists. split; [exact H|].
      split; [reflexivity|]. intros _. cbn [exp]. apply of_Z_add. }
  destruct Hc as (c & Hk & Hv & Hexp). exists c.
  split; [exact Hk|]. split; [exact Hv|]. split; [|exact Hexp].
  intros Hfresh. rewrite <- Hv. apply ebaySearch_hit; assumption.
Qed.

End SearchProperties.

Lemma ebaySearch_serves_fresh_entry_witness :
  let js := {| itemSummaries := Val [titled "Abbey Road LP"] |} in
  let E := failingSearchEnv {| itemSummaries := Undefined |} in
  ebaySearch E "abbey road" "us" "&limit=200" (cachedWorld js)
  = (Ok js, tick (cachedWorld js))
  /\ sameCredential (cachedWorld js) (tick (cachedWorld js))
  /\ cacheStore (tick (cachedWorld js)) = cacheStore (cachedWorld js).
Proof.
  cbn zeta.
  apply (ebaySearch_serves_fresh_entry
           (failingSearchEnv {| itemSummaries := Undefined |})
           "abbey road" "us" "&limit=200" (cachedWorld _)
           {| val := {| itemSummaries := Val [titled "Abbey Road LP"] |};
              exp := (Num.of_Z 1706659200000 + Num.of_Z 300000)%num |}).
  - vm_compute. reflexivity.
  - reflexivity.
Defined.

Lemma ebaySearch_failure_caches_nothing_witness :
  let body := {| itemSummaries := Undefined |} in
  exists w1,
    ebaySearch (failingSearchEnv body) "abbey road" "US" "&limit=200" initialWorld
    = (Throw (EbayError body), tick w1).
Proof.
  cbn zeta. eexists.
  destruct (ebaySearch_failure_caches_nothing (failingSearchEnv {| itemSummaries := Undefined |}))
    as [_ H].
  eapply (H "abbey road" "US" "&limit=200" initialWorld _ "token").
  - reflexivity.
  - vm_compute. reflexivity.
  - reflexivity.
  - reflexivity.
  - reflexivity.
Defined.

Lemma ebaySearch_caches_its_result_witness :
  let js := {| itemSummaries := Val [titled "Abbey Road LP"] |} in
  let E := sampleEnv js noCompleted in
  exists w' c,
    ebaySearch E "abbey road" "US" "&limit=200" initialWorld = (Ok js, w')
    /\ cacheStore w' !! cacheKeyOf "EBAY_US" "abbey road" "&limit=200" = Some c
    /\ val c = js.
Proof.
  cbn zeta.
  destruct (ebaySearch (sampleEnv {| itemSummaries := Val [titled "Abbey Road LP"] |} noCompleted)
              "abbey road" "US" "&limit=200" initialWorld) as [r w'] eqn:Hrun.
  assert (Hr : r = Ok {| itemSummaries := Val [titled "Abbey Road LP"] |}).
  { apply (f_equal fst) in Hrun. vm_compute in Hrun. rewrite <- Hrun. reflexivity. }
  subst r.
  destruct (ebaySearch_caches_its_result _ _ _ _ _ _ _ Hrun) as (c & Hk & Hv & _).
  exists w', c. split; [reflexivity|]. split; [exact Hk | exact Hv].
Defined.

(** ** Cache keys *)

Lemma append_length (a b : string) :
  String.length (a +:+ b) = (String.length a + String.length b)%nat.
Proof.
  induction a as [|c a IH]; [reflexivity|].
  rewrite append_cons. cbn [String.length]. rewrite IH. reflexivity.
Qed.

Lemma append_inj_length (a b x y : string) :
  String.length a = String.length b -> a +:+ x = b +:+ y -> a = b /\ x = y.
Proof.
  revert b. induction a as [|c a IH]; intros [|d b] Hlen H; try discriminate.
  - split; [reflexivity | exact H].
  - rewrite !append_cons in H. injection H as -> H. injection Hlen as Hlen.
    destruct (IH b Hlen H) as [-> ->]. split; reflexivity.
Qed.

Lemma append_cancel_r (a b s : string) : a +:+ s = b +:+ s -> a = b.
Proof.
  intros H. apply (append_inj_length a b s s); [|exact H].
  apply (f_equal String.length) in H. rewrite !append_length in H. lia.
Qed.

Lemma lastTwo_append (q s : string) :
  (2 <= String.length s)%nat -> lastTwo (q +:+ s) = lastTwo s.
Proof.
  intros Hs. induction q as [|c q IH]; [reflexivity|].
  rewrite append_cons. cbn [lastTwo]. rewrite <- IH.
  assert (Hlen : (2 <= String.length (q +:+ s))%nat) by (rewrite append_length; lia).
  destruct (q +:+ s) as [|x [|y r]]; cbn in Hlen; try lia. reflexivity.
Qed.

(** X12. Two searches share a cache entry only when they agree on the
    marketplace, the query text and the extra parameters: for the
    marketplaces of the table and the extras the handlers pass, the cache
    key determines all three, whatever characters the queries contain. *)
Theorem cacheKey_injective (m1 m2 q1 q2 e1 e2 : string) :
  In m1 MARKETPLACES -> In m2 MARKETPLACES ->
  In e1 SEARCH_EXTRAS -> In e2 SEARCH_EXTRAS ->
  cacheKeyOf m1 q1 e1 = cacheKeyOf m2 q2 e2 ->
  m1 = m2 /\ q1 = q2 /\ e1 = e2.
Proof.
  intros Hm1 Hm2 He1 He2 H. unfold cacheKeyOf in H.
  apply append_inj_length in H as [_ H]; [|reflexivity].
  assert (Hlen : String.length m1 = String.length m2).
  { unfold MARKETPLACES in Hm1, Hm2. cbn in Hm1, Hm2.
    repeat (destruct Hm1 as [<-|Hm1]; [|]); try contradiction;
      repeat (destruct Hm2 as [<-|Hm2]; [|]); try contradiction; reflexivity. }
  apply append_inj_length in H as [-> H]; [|exact Hlen].
  apply append_inj_length in H as [_ H]; [|reflexivity].
  split; [reflexivity|].
  assert (He : e1 = e2).
  { apply (f_equal lastTwo) in H.
    assert (H2 : forall e, In e SEARCH_EXTRAS -> (2 <= String.length ("|" +:+ e))%nat
                                                /\ lastTwo ("|" +:+ e) = lastTwo e).
    { intros e He. cbn in He.
      destruct He as [<-|[<-|[<-|[]]]];
        (split; [rewrite append_length; cbn; lia | reflexivity]). }
    destruct (H2 e1 He1) as [L1 T1]. destruct (H2 e2 He2) as [L2 T2].
    rewrite (lastTwo_append q1 _ L1), (lastTwo_append q2 _ L2), T1, T2 in H.
    cbn in He1, He2.
    destruct He1 as [<-|[<-|[<-|[]]]]; destruct He2 as [<-|[<-|[<-|[]]]];
      try reflexivity; vm_compute in H; discriminate. }
  subst e2. split; [|reflexivity].
  apply append_cancel_r in H. exact H.
Qed.

Lemma cacheKey_injective_witness :
  "EBAY_GB" = "EBAY_GB" /\ "abbey road" = "abbey road" /\ "&limit=200" = "&limit=200".
Proof.
  apply (cacheKey_injective "EBAY_GB" "EBAY_GB" "abbey road" "abbey road"
                            "&limit=200" "&limit=200");
    try reflexivity; cbn; tauto.
Defined.

(** ** Callbacks with effects *)

Lemma mapM_inv {A B} (f : A -> M B) (R : A -> B -> Prop) :
  (forall x w y w', f x w = (Ok y, w') -> R x y) ->
  forall xs w ys w', mapM f xs w = (Ok ys, w') -> Forall2 R xs ys.
Proof.
  intros Hf. induction xs as [|x xs IH]; intros w ys w' H.
  - cbn in H. injection H as <- <-. constructor.
  - cbn [mapM] in H. unfold bind at 1 in H.
    destruct (f x w) as [[y|e] w1] eqn:Hx; [|discriminate].
    unfold bind at 1 in H.
    destruct (mapM f xs w1) as [[ys1|e] w2] eqn:Hxs; [|discriminate].
    injection H as <- <-. constructor; [eapply Hf; exact Hx | eapply IH; exact Hxs].
Qed.

Lemma mapM_total {A B} (f : A -> M B) (P : A -> Prop) :
  (forall x w, P x -> exists y w', f x w = (Ok y, w')) ->
  forall xs w, Forall P xs -> exists ys w', mapM f xs w = (Ok ys, w').
Proof.
  intros Hf. induction xs as [|x xs IH]; intros w Hxs.
  - cbn. unfold ret. eauto.
  - inversion Hxs as [|? ? Hx Hxs']; subst. cbn [mapM]. unfold bind at 1.
    destruct (Hf x w Hx) as (y & w1 & ->). unfold bind at 1.
    destruct (IH w1 Hxs') as (ys & w2 & ->). unfold ret. eauto.
Qed.

Lemma Forall2_map_eq {A B C} (f : A -> C) (g : B -> C) (xs : list A) (ys : list B) :
  Forall2 (fun x y => g y = f x) xs ys -> map g ys = map f xs.
Proof. induction 1; cbn; congruence. Qed.

Lemma Sorted_firstn {A} (R : A -> A -> Prop) (n : nat) (l : list A) :
  Sorted R l -> Sorted R (firstn n l).
Proof.
  revert n. induction l as [|x l IH]; intros n Hs; [destruct n; constructor|].
  destruct n as [|n]; [constructor|]. cbn.
  inversion Hs as [|? ? Hs' Hhd]; subst. constructor; [apply IH; exact Hs'|].
  destruct l as [|y l]; [destruct n; constructor|].
  destruct n as [|n]; [constructor|]. cbn. constructor. inversion Hhd; assumption.
Qed.

Lemma In_firstn_weaken {A} (n : nat) (l : list A) (x : A) : In x (firstn n l) -> In x l.
Proof.
  revert n. induction l as [|y l IH]; intros [|n] H; cbn in H; try contradiction.
  destruct H as [->|H]; [left; reflexivity | right; eapply IH; exact H].
Qed.

(** ** Trending *)

Section TrendingProperties.
Context (rt : runtime) (E : env).

Lemma trending_loop_vinyl (country : string) (queries : list string)
    (found found' : list RawItem) (w w' : world) :
  trending_loop E country queries found w = (Ok found', w') ->
  Forall (fun it => isVinyl it = true) found ->
  Forall (fun it => isVinyl it = true) found'.
Proof.
  revert found w. induction queries as [|q queries IH]; intros found w H Hf.
  - cbn in H. injection H as <- <-. exact Hf.
  - cbn [trending_loop] in H. unfold bind at 1 in H.
    destruct (trending_step_total E country found q w) as (f1 & w1 & Hs & Hcase).
    rewrite Hs in H. apply IH in H; [exact H|].
    destruct Hcase as [->|(js & ->)]; [exact Hf|].
    apply Forall_app. split; [exact Hf|].
    apply List.Forall_forall. intros x Hx. apply filter_In in Hx as [_ Hx]. exact Hx.
Qed.

Lemma enrich_item (it : RawItem) (w w' : world) (s : ScoredItem) :
  enrich rt E it w = (Ok s, w') -> s_item s = normalizeVinyl it.
Proof. unfold enrich, bind, ask, ret. intros [= <- _]. reflexivity. Qed.

(** X13. [/vinyl-trending] never answers with an error.  The items it
    sends are normalised vinyl items with pairwise different titles, in
    order of non-increasing score, and at most [total] of them. *)
Theorem vinyl_trending_body (country limit : option string) (w : world) :
  exists body w',
    vinyl_trending rt E country limit w = (Ok (Send body), w')
    /\ t_country body = default "US" country
    /\ NoDup (map (fun s => c_title (s_item s)) (t_items body))
    /\ Forall (fun s => exists it, isVinyl it = true /\ s_item s = normalizeVinyl it)
              (t_items body)
    /\ (length (t_items body) <= t_total body)%nat
    /\ Sorted (fun a b => Num.ltb (score a) (score b) = false) (t_items body).
Proof.
  unfold vinyl_trending, try_catch. cbn zeta. unfold bind at 1.
  destruct (trending_loop_total E (default "US" country) trending_queries [] w)
    as (found & w1 & Hloop).
  rewrite Hloop. unfold bind at 1.
  destruct (mapM_enrich_total rt E (dedupByTitle found) w1) as (en & w2 & Hen).
  rewrite Hen. unfold ret.
  set (sorted := sort (fun a b => (score b - score a)%num) en).
  eexists _, _. split; [reflexivity|]. cbn [t_country t_items t_total].
  assert (Hvinyl : Forall (fun it => isVinyl it = true) found).
  { eapply trending_loop_vinyl; [exact Hloop | constructor]. }
  assert (Hded : dedupByTitle found = keepFirst title [] found).
  { apply map_values_fold_keepFirst. }
  assert (Hmap : map s_item en = map normalizeVinyl (dedupByTitle found)).
  { apply Forall2_map_eq. eapply mapM_inv; [|exact Hen].
    intros x w0 y w0' Hx. eapply enrich_item. exact Hx. }
  assert (Hperm : Permutation en sorted) by apply sort_perm.
  assert (Htake : sublist (slice0 (limitNumber rt limit 40) sorted) sorted).
  { unfold slice0. apply sublist_take. }
  split; [reflexivity|]. split; [|split; [|split]].
  - eapply sublist_NoDup; [|apply (fmap_sublist _ _ _ Htake)].
    apply NoDup_ListNoDup.
    eapply Permutation_NoDup; [apply Permutation_map; exact Hperm|].
    apply NoDup_ListNoDup.
    rewrite <- (map_map s_item c_title), Hmap, map_map, Hded.
    cbn. apply keepFirst_NoDup.
  - apply List.Forall_forall. intros s Hs.
    apply list_elem_of_In in Hs. apply (elem_of_sublist _ _ _ Hs) in Htake.
    apply list_elem_of_In in Htake.
    apply (Permutation_in _ (Permutation_sym Hperm)) in Htake.
    apply (in_map s_item) in Htake. rewrite Hmap in Htake.
    apply in_map_iff in Htake as (it & Hit & Hin). exists it. split; [|auto].
    rewrite List.Forall_forall in Hvinyl. apply Hvinyl.
    apply list_elem_of_In. eapply elem_of_sublist; [|apply (keepFirst_sublist title [] found)].
    rewrite <- Hded. apply list_elem_of_In. exact Hin.
  - unfold slice0. rewrite length_firstn. lia.
  - unfold slice0. apply Sorted_firstn. unfold sorted.
    eapply Sorted_impl with (P := fun _ => True);
      [| apply Forall_forall; auto | apply sort_sorted].
    + intros a b _ _ H. unfold inOrder in H. rewrite sub_positive in H. exact H.
    + intros a b. rewrite !sub_positive. apply ltb_asym.
Qed.

End TrendingProperties.

(** ** Recommendations *)

Section RecommendProperties.
Context (rt : runtime) (E : env).

Lemma scoreCandidate_item (baseArtist : string) (basePrice : number)
    (baseWords : list string) (it : RawItem) (w w' : world) (r : Recommended) :
  scoreCandidate rt E baseArtist basePrice baseWords it w = (Ok r, w') ->
  r_item r = normalizeVinyl it.
Proof.
  unfold scoreCandidate. unfold bind at 1.
  destruct (c_title (normalizeVinyl it)); [discriminate | discriminate |].
  unfold ret at 1. unfold bind, ask, ret. intros [= <- _]. reflexivity.
Qed.

Lemma scoreCandidate_total (baseArtist : string) (basePrice : number)
    (baseWords : list string) (it : RawItem) (w : world) :
  isVinyl it = true ->
  exists r w', scoreCandidate rt E baseArtist basePrice baseWords it w = (Ok r, w').
Proof.
  intros Hv. apply isVinyl_true_iff in Hv as (s & Hs & _).
  unfold scoreCandidate. unfold bind at 1. cbn [normalizeVinyl c_title]. rewrite Hs.
  unfold ret at 1. unfold bind, ask, ret. eauto.
Qed.

Lemma otherThan_spec (id : string) (it : RawItem) :
  otherThan id it = true <-> itemId it <> Val id.
Proof.
  unfold otherThan. rewrite negb_true_iff, bool_decide_eq_false. reflexivity.
Qed.

(** X14. Whenever [/recommend] sends a body for a request with a non-empty
    [id], no item of the body carries that item id, and the base of the
    body names the id; every item sent is a normalised vinyl item that the
    search returned, and at most [total_items] items are sent.  None of
    this depends on the order the sort leaves the candidates in. *)
Theorem recommend_excludes_base_item
    (i : string) (country limit q : option string) (w w' : world) (body : RecommendBody) :
  i <> "" ->
  recommend rt E (Some i) country limit q w = (Ok (Send body), w') ->
  b_id (base body) = Val i
  /\ Forall (fun r => c_itemId (r_item r) <> Val i) (r_items body)
  /\ Forall (fun r => exists it, isVinyl it = true /\ r_item r = normalizeVinyl it)
            (r_items body)
  /\ (length (r_items body) <= r_total_items body)%nat.
Proof.
  intros Hid. assert (Htr : truthy i = true) by (destruct i; [congruence | reflexivity]).
  unfold recommend, try_catch. cbn zeta. unfold bind at 1.
  destruct (loadBase rt E (Some i) _ _ w) as [[[[[bt ba] bp] q0]|e] w1]; [|discriminate].
  unfold bind at 1.
  destruct (ebaySearch E _ _ _ w1) as [[raw|e] w2]; [|discriminate].
  rewrite Htr. cbn [default from_option id].
  set (items := List.filter (otherThan i) (List.filter isVinyl (or_nil (itemSummaries raw)))).
  unfold bind at 1.
  destruct (mapM (scoreCandidate rt E ba bp (baseWordsOf bt)) items w2) as [[rec|e] w3] eqn:Hmap; [|discriminate].
  unfold ret. intros [= <- _]. cbn [base b_id r_items r_total_items].
  set (sorted := sort (fun a b => (recommend_score b - recommend_score a)%num) rec).
  assert (Hitems : map r_item rec = map normalizeVinyl items).
  { apply Forall2_map_eq. eapply mapM_inv; [|exact Hmap].
    intros x w0 y w0' Hx. eapply scoreCandidate_item. exact Hx. }
  assert (Hperm : Permutation rec sorted) by apply sort_perm.
  assert (Hin : forall r, In r (slice0 (limitNumber rt limit 20) sorted) ->
                          exists it, In it items /\ r_item r = normalizeVinyl it).
  { intros r Hr. unfold slice0 in Hr. apply In_firstn_weaken in Hr.
    apply (Permutation_in _ (Permutation_sym Hperm)) in Hr.
    apply (in_map r_item) in Hr. rewrite Hitems in Hr.
    apply in_map_iff in Hr as (it & Hit & Hin). eauto. }
  split; [reflexivity|]. split; [|split].
  - apply List.Forall_forall. intros r Hr. destruct (Hin r Hr) as (it & Hit & ->).
    unfold items in Hit. apply filter_In in Hit as [_ Hit].
    apply otherThan_spec in Hit. exact Hit.
  - apply List.Forall_forall. intros r Hr. destruct (Hin r Hr) as (it & Hit & ->).
    exists it. split; [|reflexivity].
    unfold items in Hit. apply filter_In in Hit as [Hit _].
    apply filter_In in Hit as [_ Hit]. exact Hit.
  - unfold slice0. rewrite length_firstn. lia.
Qed.

(** X15. A free-text request (no [id]) whose search returns is always
    answered with a body: scoring never fails on the items that passed the
    vinyl filter.  The base of the body is empty with price 0, every vinyl
    item of the search result is counted, and the search text is the given
    [q], or "vinyl record" when [q] is missing or empty. *)
Theorem recommend_free_text_sends
    (country limit q : option string) (w w1 : world) (raw : SearchJson) :
  let text := if truthy (default "" q) then default "" q else "vinyl record" in
  ebaySearch E text (default "US" country) "&limit=200" w = (Ok raw, w1) ->
  exists body w',
    recommend rt E None country limit q w = (Ok (Send body), w')
    /\ base body = {| b_id := Null; b_title := ""; b_artist := ""; b_price := Num.of_Z 0 |}
    /\ r_total_items body = length (List.filter isVinyl (or_nil (itemSummaries raw))).
Proof.
  intros text Hsearch. unfold recommend, try_catch. cbn zeta.
  unfold bind at 1. cbn [loadBase]. unfold ret at 1. fold text.
  unfold bind at 1. rewrite Hsearch. cbn [default from_option].
  set (items := List.filter isVinyl (or_nil (itemSummaries raw))).
  unfold bind at 1.
  destruct (mapM_total (scoreCandidate rt E "" (Num.of_Z 0) (baseWordsOf ""))
                       (fun it => isVinyl it = true)
                       (fun x w0 => scoreCandidate_total _ _ _ x w0) items w1)
    as (rec & w2 & Hmap).
  { apply List.Forall_forall. intros x Hx. apply filter_In in Hx as [_ Hx]. exact Hx. }
  rewrite Hmap. unfold ret. eexists _, _. split; [reflexivity|].
  cbn [base r_total_items]. split; [reflexivity|].
  rewrite <- (Permutation_length (sort_perm _ rec)).
  assert (H2 : Forall2 (fun _ _ => True) items rec).
  { eapply mapM_inv; [|exact Hmap]. auto. }
  symmetry. eapply Forall2_length. exact H2.
Qed.

End RecommendProperties.

Lemma recommend_excludes_base_item_witness :
  let E := detailEnv (itemWith "1" "Abbey Road LP" "20")
             {| itemSummaries := Val [itemWith "1" "Abbey Road LP" "20";
                                      itemWith "2" "Abbey Road vinyl" "30"] |} in
  exists body w',
    recommend sampleRuntime E (Some "1") None None None initialWorld = (Ok (Send body), w')
    /\ Forall (fun r => c_itemId (r_item r) <> Val "1") (r_items body)
    /\ length (r_items body) = 1%nat.
Proof.
  cbn zeta.
  destruct (recommend sampleRuntime _ (Some "1") None None None initialWorld)
    as [r w'] eqn:Hrun.
  assert (Hr : exists body, r = Ok (Send body) /\ length (r_items body) = 1%nat).
  { apply (f_equal fst) in Hrun. vm_compute in Hrun. rewrite <- Hrun. eauto. }
  destruct Hr as (body & -> & Hlen). exists body, w'.
  split; [reflexivity|]. split; [|exact Hlen].
  eapply (recommend_excludes_base_item sampleRuntime _ "1"); [discriminate | exact Hrun].
Defined.

Lemma recommend_free_text_sends_witness :
  let E := sampleEnv {| itemSummaries := Val [titled "Abbey Road LP"; titled "Poster"] |}
                     noCompleted in
  exists body w',
    recommend sampleRuntime E None None None None initialWorld = (Ok (Send body), w')
    /\ r_total_items body = 1%nat.
Proof.
  cbn zeta.
  destruct (ebaySearch
              (sampleEnv {| itemSummaries := Val [titled "Abbey Road LP"; titled "Poster"] |}
                         noCompleted)
              "vinyl record" "US" "&limit=200" initialWorld) as [r w1] eqn:Hrun.
  assert (Hr : r = Ok {| itemSummaries := Val [titled "Abbey Road LP"; titled "Poster"] |}).
  { apply (f_equal fst) in Hrun. vm_compute in Hrun. rewrite <- Hrun. reflexivity. }
  subst r.
  destruct (recommend_free_text_sends sampleRuntime _ None None None _ _ _ Hrun)
    as (body & w' & H & _ & Htot).
  exists body, w'. split; [exact H | exact Htot].
Defined.

(** ** Score terms *)

Lemma or_else_null_val {A} `{Truthy A} (x : field A) (a : A) :
  or_else x Null = Val a -> truthy a = true.
Proof.
  destruct (or_else_null_shape x) as [->|(b & -> & Hb)]; [discriminate|].
  intros [= <-]. exact Hb.
Qed.

Lemma le_Fin (x y : Qc) : Num.le (Fin x) (Fin y) <-> (x <= y)%Qc.
Proof. unfold Num.le. cbn. rewrite negb_true_iff. apply Qc_ltb_ge. Qed.

Lemma add_twenty_commutes (x : number) (o : Qc) (z : number) :
  (Num.of_Z 0 + Num.of_Z 20 + x + Fin o + z)%num
  = (Num.of_Z 0 + Num.of_Z 0 + x + Fin o + z + Num.of_Z 20)%num.
Proof.
  destruct x as [| | |p], z as [| | |r]; try reflexivity.
  cbn. apply (f_equal Fin). rewrite Qc_of_Z_0. ring.
Qed.

(** X16. A matching artist never lowers the score: of two candidates with
    the same price and title words and the same random jitter, the one
    whose artist equals the base artist up to letter case gets a score
    before rounding that is not [NaN] and not below the score of the one
    whose artist does not match, whenever that score is a number. *)
Theorem artist_match_never_lowers_score (rt : runtime)
    (baseArtist : string) (basePrice : number) (baseWords words : list string)
    (rnd : number) (it1 it2 : RawItem) (a : string) :
  baseArtist <> "" ->
  c_artist (normalizeVinyl it1) = Val a ->
  Str.toLowerCase a = Str.toLowerCase baseArtist ->
  artistTerm baseArtist (normalizeVinyl it2) = Num.of_Z 0 ->
  priceNumber rt (price it1) = priceNumber rt (price it2) ->
  rawScore rt baseArtist basePrice baseWords it2 words rnd <> NaN ->
  Num.le (rawScore rt baseArtist basePrice baseWords it2 words rnd)
         (rawScore rt baseArtist basePrice baseWords it1 words rnd).
Proof.
  intros Hb Ha Hlow H2 Hp.
  assert (Hshift : rawScore rt baseArtist basePrice baseWords it1 words rnd
                   = (rawScore rt baseArtist basePrice baseWords it2 words rnd
                      + Num.of_Z 20)%num); [|clear Hb Ha Hlow H2 Hp].
  unfold rawScore. cbv zeta. rewrite H2, Hp.
  assert (H1 : artistTerm baseArtist (normalizeVinyl it1) = Num.of_Z 20).
  { unfold artistTerm. rewrite Ha.
    assert (Hta : truthy a = true).
    { unfold normalizeVinyl in Ha. cbn [c_artist] in Ha. eapply or_else_null_val. exact Ha. }
    rewrite Hta, Hlow, String.eqb_refl.
    destruct baseArtist; [congruence | reflexivity]. }
  rewrite H1. apply add_twenty_commutes.
  rewrite Hshift.
  destruct (rawScore rt baseArtist basePrice baseWords it2 words rnd) as [| | |x];
    intros Hnan; [congruence | reflexivity | reflexivity |].
  change (Fin x + Num.of_Z 20)%num with (Fin (x + Qc_of_Z 20)%Qc).
  apply le_Fin. rewrite <- (Qcplus_0_r x) at 1.
  apply Qcplus_le_mono_l. discriminate.
Qed.

Lemma artist_match_never_lowers_score_witness :
  let it1 := titled "Pink Floyd - The Wall LP" in
  let it2 := titled "Queen - Jazz LP" in
  Num.le (rawScore sampleRuntime "PINK FLOYD" (Num.of_Z 20) [] it2 [] (Num.of_Z 0))
         (rawScore sampleRuntime "PINK FLOYD" (Num.of_Z 20) [] it1 [] (Num.of_Z 0)).
Proof.
  cbn zeta.
  apply (artist_match_never_lowers_score sampleRuntime "PINK FLOYD" _ _ _ _ _ _ "Pink Floyd");
    try reflexivity; discriminate.
Defined.

Lemma priceTerm_shape (b p : Qc) :
  (0 < b)%Qc ->
  let d := (if Num.Qc_ltb (p + - b) 0 then - (p + - b) else p + - b)%Qc in
  let x := (Qc_of_Z 15 + - (d / b * Qc_of_Z 20))%Qc in
  priceTerm (Fin b) (Fin p) = Fin (if Num.Qc_ltb (Qc_of_Z 0) x then x else Qc_of_Z 0).
Proof.
  intros Hb d x. unfold priceTerm. cbn.
  assert (Hb0 : Num.Qc_is0 b = false).
  { apply not_true_is_false. rewrite Qc_is0_spec. intros ->.
    exact (Qclt_not_eq _ _ Hb eq_refl). }
  rewrite Hb0. cbn. fold d. fold x. destruct (Num.Qc_ltb (Qc_of_Z 0) x); reflexivity.
Qed.

Lemma abs_diff_nonneg (p b : Qc) :
  let d := (if Num.Qc_ltb (p + - b) 0 then - (p + - b) else p + - b)%Qc in
  (0 <= d)%Qc /\ (d = 0%Qc <-> p = b).
Proof.
  cbn zeta. destruct (Num.Qc_ltb (p + - b) 0) eqn:Hlt.
  - apply Qc_ltb_lt in Hlt. split.
    + apply Qclt_le_weak in Hlt. apply Qcopp_le_compat in Hlt.
      replace (- 0)%Qc with 0%Qc in Hlt by (apply Qc_is_canon; reflexivity). exact Hlt.
    + split.
      * intros H. exfalso. apply (Qclt_not_eq _ _ Hlt).
        rewrite <- (Qcopp_involutive (p + - b)), H. apply Qc_is_canon; reflexivity.
      * intros ->. exfalso. apply (Qclt_not_eq _ _ Hlt). ring.
  - apply Qc_ltb_ge in Hlt. split; [exact Hlt|]. split.
    + intros H. rewrite <- (Qcplus_0_l b), <- H. ring.
    + intros ->. ring.
Qed.

(** X17. For a positive base price and a finite candidate price the
    price-similarity term is a finite number between 0 and 15, and it is 15
    exactly when the two prices are equal. *)
Theorem priceTerm_between_0_and_15 (b p : Qc) :
  (0 < b)%Qc ->
  exists t : Qc,
    priceTerm (Fin b) (Fin p) = Fin t
    /\ (Qc_of_Z 0 <= t)%Qc /\ (t <= Qc_of_Z 15)%Qc
    /\ (t = Qc_of_Z 15 <-> p = b).
Proof.
  intros Hb. rewrite (priceTerm_shape b p Hb). cbn zeta.
  set (d := (if Num.Qc_ltb (p + - b) 0 then - (p + - b) else p + - b)%Qc).
  destruct (abs_diff_nonneg p b) as [Hd Hd0]. fold d in Hd, Hd0.
  assert (Hbne : b <> 0%Qc) by (intros ->; exact (Qclt_not_eq _ _ Hb eq_refl)).
  set (u := (d / b)%Qc).
  assert (Hu : (0 <= u)%Qc).
  { unfold u, Qcdiv. apply Qcmult_nonneg_nonneg; [exact Hd|].
    apply Qclt_le_weak, Qcinv_pos. exact Hb. }
  assert (Hu0 : u = 0%Qc -> d = 0%Qc).
  { intros H. rewrite <- (Qcmult_div_r d b Hbne). fold u. rewrite H. ring. }
  set (x := (Qc_of_Z 15 + - (u * Qc_of_Z 20))%Qc).
  assert (Hx : (x <= Qc_of_Z 15)%Qc).
  { unfold x. rewrite <- (Qcplus_0_r (Qc_of_Z 15)) at 2.
    apply Qcplus_le_mono_l.
    replace 0%Qc with (- 0)%Qc by (apply Qc_is_canon; reflexivity).
    apply Qcopp_le_compat. apply Qcmult_nonneg_nonneg; [exact Hu | discriminate]. }
  assert (Hx15 : x = Qc_of_Z 15 -> p = b).
  { intros H. apply Hd0, Hu0.
    assert (H20 : (u * Qc_of_Z 20 = 0)%Qc).
    { rewrite <- (Qcopp_involutive (u * Qc_of_Z 20)).
      replace (- (u * Qc_of_Z 20))%Qc with (x + - Qc_of_Z 15)%Qc by (unfold x; ring).
      rewrite H. ring. }
    apply Qcmult_integral in H20 as [H20|H20]; [exact H20 | discriminate]. }
  assert (Hpb : p = b -> x = Qc_of_Z 15).
  { intros H. apply Hd0 in H. unfold x, u. rewrite H. unfold Qcdiv. ring. }
  eexists. split; [reflexivity|].
  destruct (Num.Qc_ltb (Qc_of_Z 0) x) eqn:Hpos.
  - apply Qc_ltb_lt in Hpos. split; [apply Qclt_le_weak; exact Hpos|]. split; [exact Hx|].
    split; assumption.
  - split; [apply Qcle_refl|]. split; [discriminate|]. split; [discriminate|].
    intros H. exfalso. apply Qc_ltb_ge in Hpos. rewrite (Hpb H) in Hpos.
    apply (Qcle_not_lt _ _ Hpos). reflexivity.
Qed.

Lemma priceTerm_between_0_and_15_witness :
  exists t : Qc,
    priceTerm (Num.of_Z 20) (Num.of_Z 25) = Fin t
    /\ (Qc_of_Z 0 <= t)%Qc /\ (t <= Qc_of_Z 15)%Qc
    /\ (t = Qc_of_Z 15 <-> Qc_of_Z 25 = Qc_of_Z 20).
Proof.
  apply (priceTerm_between_0_and_15 (Qc_of_Z 20) (Qc_of_Z 25)). reflexivity.
Defined.

(** ** Price statistics *)

Lemma sorted_nth_le (l : list number) (i j : nat) :
  StronglySorted Num.le l ->
  Forall (fun p => p <> NaN) l ->
  (i <= j)%nat -> (j < length l)%nat ->
  Num.le (nth i l NaN) (nth j l NaN).
Proof.
  intros Hs. revert i j. induction Hs as [|x l Hs IH Hx]; intros i j Hn Hij Hj.
  - cbn in Hj. lia.
  - inversion Hn as [|? ? Hxn Hln]; subst. destruct j as [|j].
    + assert (i = 0%nat) by lia. subst i. cbn. apply le_refl. exact Hxn.
    + destruct i as [|i]; cbn.
      * rewrite List.Forall_forall in Hx. apply Hx. apply nth_In. cbn in Hj. lia.
      * apply IH; [exact Hln | lia | cbn in Hj; lia].
Qed.

Lemma finite_not_NaN (l : list number) :
  Forall (fun p => Num.isFinite p = true) l -> Forall (fun p => p <> NaN) l.
Proof.
  intros H. eapply List.Forall_impl; [|exact H]. intros p Hp ->. discriminate.
Qed.

Lemma mean_between (lo a b hi : Qc) :
  (lo <= a)%Qc -> (a <= b)%Qc -> (b <= hi)%Qc ->
  Num.le (Fin lo) ((Fin a + Fin b) / Num.of_Z 2)%num
  /\ Num.le ((Fin a + Fin b) / Num.of_Z 2)%num (Fin hi).
Proof.
  intros H1 H2 H3.
  change ((Fin a + Fin b) / Num.of_Z 2)%num with (Fin ((a + b) / Qc_of_Z 2)%Qc).
  rewrite !le_Fin.
  unfold Qcle in *. cbn. rewrite !Qred_correct.
  set (xl := this lo) in *. set (xa := this a) in *.
  set (xb := this b) in *. set (xh := this hi) in *.
  clearbody xl xa xb xh. split; lra.
Qed.

(** X18. For a non-empty series of finite prices the statistics of
    [/price-history] are consistent: the lowest and the highest price are
    prices of the series and every price lies between them.  So does the
    median when no price exceeds 10^300 in magnitude, which keeps the sum
    of the two middle prices within the range of the number format. *)
Theorem price_stats_ordered (sold : list number) :
  sold <> [] ->
  Forall (fun p => Num.isFinite p = true) sold ->
  let st := priceStats sold in
  In (lowest_price st) sold
  /\ In (highest_price st) sold
  /\ Forall (fun p => Num.le (lowest_price st) p /\ Num.le p (highest_price st)) sold
  /\ (Forall (atMost (10 ^ 300)) sold ->
      Num.le (lowest_price st) (median_price st)
      /\ Num.le (median_price st) (highest_price st)).
Proof.
  intros Hne Hfin st. unfold st, priceStats. cbn [lowest_price highest_price median_price].
  set (prices := sortAscending sold).
  set (n := length prices).
  assert (Hperm : Permutation sold prices) by apply sortAscending_perm.
  assert (Hlen : n = length sold) by apply sortAscending_length.
  assert (Hpos : (0 < n)%nat) by (rewrite Hlen; destruct sold; [congruence | cbn; lia]).
  assert (Hfin' : Forall (fun p => Num.isFinite p = true) prices)
    by (eapply Permutation_Forall; eassumption).
  assert (Hnan : Forall (fun p => p <> NaN) prices) by (apply finite_not_NaN; exact Hfin').
  assert (Hs : StronglySorted Num.le prices).
  { apply sortAscending_strongly_sorted, finite_not_NaN. exact Hfin. }
  assert (Hnth : forall i j, (i <= j)%nat -> (j < n)%nat ->
                             Num.le (at_index prices i) (at_index prices j)).
  { intros i j Hij Hj. apply sorted_nth_le; assumption. }
  assert (Hmem : forall i, (i < n)%nat -> In (at_index prices i) sold).
  { intros i Hi. apply (Permutation_in _ (Permutation_sym Hperm)). apply nth_In. exact Hi. }
  split; [apply Hmem; lia|]. split; [apply Hmem; lia|]. split.
  - apply List.Forall_forall. intros p Hp.
    apply (Permutation_in _ Hperm) in Hp.
    apply (In_nth _ _ NaN) in Hp as (j & Hj & <-). fold n in Hj.
    split; apply Hnth; lia.
  - intros _.
    assert (Hhalf : (n / 2 < n)%nat) by (apply Nat.div_lt; lia).
    unfold medianOf. fold n. destruct (n mod 2 =? 0)%nat eqn:Heven.
    + assert (H2 : (1 <= n / 2)%nat).
      { apply Nat.eqb_eq in Heven. pose proof (Nat.div_mod_eq n 2). lia. }
      assert (Hva : exists a, at_index prices (n / 2 - 1) = Fin a).
      { rewrite List.Forall_forall in Hfin'.
        specialize (Hfin' (at_index prices (n / 2 - 1))).
        destruct (at_index prices (n / 2 - 1)) eqn:Ha; eauto;
          exfalso; (assert (Hin : In (at_index prices (n / 2 - 1)) prices)
                      by (apply nth_In; fold n; lia));
          rewrite Ha in Hin; specialize (Hfin' Hin); discriminate. }
      assert (Hvb : exists b, at_index prices (n / 2) = Fin b).
      { rewrite List.Forall_forall in Hfin'.
        specialize (Hfin' (at_index prices (n / 2))).
        destruct (at_index prices (n / 2)) eqn:Hb; eauto;
          exfalso; (assert (Hin : In (at_index prices (n / 2)) prices)
                      by (apply nth_In; fold n; lia));
          rewrite Hb in Hin; specialize (Hfin' Hin); discriminate. }
      assert (Hvl : exists lo, at_index prices 0 = Fin lo).
      { rewrite List.Forall_forall in Hfin'.
        specialize (Hfin' (at_index prices 0)).
        destruct (at_index prices 0) eqn:Hl; eauto;
          exfalso; (assert (Hin : In (at_index prices 0) prices)
                      by (apply nth_In; fold n; lia));
          rewrite Hl in Hin; specialize (Hfin' Hin); discriminate. }
      assert (Hvh : exists hi, at_index prices (n - 1) = Fin hi).
      { rewrite List.Forall_forall in Hfin'.
        specialize (Hfin' (at_index prices (n - 1))).
        destruct (at_index prices (n - 1)) eqn:Hh; eauto;
          exfalso; (assert (Hin : In (at_index prices (n - 1)) prices)
                      by (apply nth_In; fold n; lia));
          rewrite Hh in Hin; specialize (Hfin' Hin); discriminate. }
      destruct Hva as [a Ha], Hvb as [b Hb], Hvl as [lo Hl], Hvh as [hi Hh].
      pose proof (Hnth 0%nat (n / 2 - 1)%nat ltac:(lia) ltac:(lia)) as L1.
      pose proof (Hnth (n / 2 - 1)%nat (n / 2)%nat ltac:(lia) ltac:(lia)) as L2.
      pose proof (Hnth (n / 2)%nat (n - 1)%nat ltac:(lia) ltac:(lia)) as L3.
      rewrite Ha, Hb, Hl, Hh in *. apply le_Fin in L1, L2, L3.
      apply mean_between; assumption.
    + split; apply Hnth; lia.
Qed.

Lemma price_stats_ordered_witness :
  let st := priceStats (map Num.of_Z [30; 10; 20; 40]%Z) in
  Num.le (lowest_price st) (median_price st)
  /\ Num.le (median_price st) (highest_price st).
Proof.
  cbn zeta.
  destruct (price_stats_ordered (map Num.of_Z [30; 10; 20; 40]%Z)) as (_ & _ & _ & H).
  - discriminate.
  - repeat constructor.
  - apply H. repeat constructor; vm_compute; reflexivity.
Defined.

(** ** Chart data: variants, fetches and windows *)

Lemma keepFirst_covers {K V : Type} `{EqDecision K} (key : V -> K)
    (seen : list K) (l : list V) (x : V) :
  x ∈ l -> key x ∉ seen -> exists y, y ∈ keepFirst key seen l /\ key y = key x.
Proof.
  revert seen. induction l as [|x0 l IH]; intros seen Hin Hseen; [inversion Hin|].
  cbn [keepFirst]. apply elem_of_cons in Hin. case_bool_decide as H0.
  - destruct Hin as [->|Hin]; [contradiction|]. apply IH; assumption.
  - destruct Hin as [->|Hin]; [exists x0; split; [left | reflexivity]|].
    destruct (decide (key x = key x0)) as [Heq|Hne].
    + exists x0. split; [left | symmetry; exact Heq].
    + destruct (IH (seen ++ [key x0]) Hin) as (y & Hy & Hk).
      * apply not_elem_of_app. split; [exact Hseen|].
        intros Hs%list_elem_of_singleton. contradiction.
      * exists y. split; [right; exact Hy | exact Hk].
Qed.

Lemma uniq_keepFirst (xs : list string) :
  Expand.uniq xs = keepFirst (fun x => x) [] xs.
Proof.
  unfold Expand.uniq. apply (map_values_fold_keepFirst (fun x : string => x)).
Qed.

Lemma append_neq_self (q s : string) : s <> "" -> q +:+ s <> q.
Proof.
  intros Hs H. apply (f_equal String.length) in H. rewrite append_length in H.
  destruct s; [congruence | cbn in H; lia].
Qed.

Lemma append_inj_l (q a b : string) : q +:+ a = q +:+ b -> a = b.
Proof. intros H. apply (append_inj_length q q a b) in H as [_ H]; [exact H | reflexivity]. Qed.

(** X19. The variant list of [/chart-data] has no duplicates, holds
    exactly the strings of the nine expansions, starts with the query
    itself and has between five and nine entries. *)
Theorem chart_variants (q : string) :
  let variants := Expand.uniq (Expand.expansions q) in
  NoDup variants
  /\ (forall v, In v variants <-> In v (Expand.expansions q))
  /\ hd_error variants = Some q
  /\ (5 <= length variants <= 9)%nat.
Proof.
  cbn zeta. rewrite uniq_keepFirst.
  set (xs := Expand.expansions q).
  assert (Hnd : NoDup (keepFirst (fun x : string => x) [] xs)).
  { pose proof (keepFirst_NoDup (fun x : string => x) [] xs) as H.
    rewrite map_id in H. exact H. }
  assert (Hmem : forall v, In v (keepFirst (fun x : string => x) [] xs) <-> In v xs).
  { intros v. rewrite <- !list_elem_of_In. split.
    - intros H. eapply elem_of_sublist; [exact H | apply keepFirst_sublist].
    - intros H. destruct (keepFirst_covers (fun x : string => x) [] xs v H)
        as (y & Hy & ->); [intros Hin; inversion Hin | exact Hy]. }
  split; [exact Hnd|]. split; [exact Hmem|]. split; [reflexivity|]. split.
  - assert (Hfive : List.NoDup [q; q +:+ " vinyl"; q +:+ " lp"; q +:+ " record";
                                q +:+ " cassette"]).
    { repeat constructor; cbn; intros H;
        repeat (destruct H as [H|H];
                [first [ symmetry in H; apply append_neq_self in H; [exact H | discriminate]
                       | apply append_neq_self in H; [exact H | discriminate]
                       | apply append_inj_l in H; discriminate ] |]);
        exact H. }
    apply (NoDup_incl_length Hfive). intros v Hv. apply Hmem. unfold xs, Expand.expansions.
    cbn in Hv |- *. tauto.
  - pose proof (sublist_length _ _ (keepFirst_sublist (fun x : string => x) [] xs)) as H.
    exact H.
Qed.

Lemma filter_length_mono {A} (f g : A -> bool) (l : list A) :
  (forall x, f x = true -> g x = true) ->
  (length (List.filter f l) <= length (List.filter g l))%nat.
Proof.
  intros Hfg. induction l as [|x l IH]; cbn; [lia|].
  destruct (f x) eqn:Hf.
  - rewrite (Hfg x Hf). cbn. lia.
  - destruct (g x); cbn; lia.
Qed.

Lemma countOf_makeSummary (prices : list number) :
  countOf (makeSummary prices) = length prices.
Proof. destruct prices; reflexivity. Qed.

Lemma window_widens (now d1 d2 : Z) (x : number) :
  (d1 <= d2)%Z ->
  Num.geb x (dateValue (daysAgo now d1)) = true ->
  Num.geb x (dateValue (daysAgo now d2)) = true.
Proof.
  intros Hd H. unfold daysAgo, dateValue in *.
  apply (le_trans (Num.of_Z (now - d2 * 86400000)) (Num.of_Z (now - d1 * 86400000)) x).
  - unfold Num.le. rewrite geb_of_Z. apply Z.leb_le. lia.
  - exact H.
Qed.

(** X20. The three window summaries of a chart are nested: the 30-day
    count is at most the 60-day count, which is at most the 90-day count,
    which is at most the number of records; so a null 90-day summary makes
    the other two null as well.  This holds for every list of records,
    valid dates or not. *)
Theorem chart_windows_nested (now : Z) (combined : list SoldRecord) :
  let c := makeChart now combined in
  (countOf (d30 c) <= countOf (d60 c))%nat
  /\ (countOf (d60 c) <= countOf (d90 c))%nat
  /\ (countOf (d90 c) <= length combined)%nat
  /\ (d90 c = None -> d60 c = None /\ d30 c = None).
Proof.
  cbn zeta. unfold makeChart. cbn [d30 d60 d90].
  rewrite !countOf_makeSummary. unfold rangeData. rewrite !length_map.
  assert (H36 : (length (List.filter (fun i => Num.geb (dateValue (sr_date i))
                                                        (dateValue (daysAgo now 30))) combined)
                 <= length (List.filter (fun i => Num.geb (dateValue (sr_date i))
                                                           (dateValue (daysAgo now 60))) combined))%nat).
  { apply filter_length_mono. intros x. apply window_widens. lia. }
  assert (H69 : (length (List.filter (fun i => Num.geb (dateValue (sr_date i))
                                                        (dateValue (daysAgo now 60))) combined)
                 <= length (List.filter (fun i => Num.geb (dateValue (sr_date i))
                                                           (dateValue (daysAgo now 90))) combined))%nat).
  { apply filter_length_mono. intros x. apply window_widens. lia. }
  split; [exact H36|]. split; [exact H69|]. split; [apply List.filter_length_le|].
  intros H90. apply makeSummary_none in H90.
  apply (f_equal (@length number)) in H90. rewrite length_map in H90. cbn [length] in H90.
  split; apply makeSummary_none; apply length_zero_iff_nil; rewrite length_map; lia.
Qed.

Lemma chart_windows_nested_witness :
  let now := 1706659200000%Z in
  let old := {| sr_price := Num.of_Z 40; sr_date := DateAt (now - 95 * 86400000) |} in
  let c := makeChart now [old] in
  d60 c = None /\ d30 c = None.
Proof.
  cbn zeta.
  apply (chart_windows_nested 1706659200000
           [ {| sr_price := Num.of_Z 40;
                sr_date := DateAt (1706659200000 - 95 * 86400000) |} ]).
  vm_compute. reflexivity.
Defined.

(** X21. When every variant is fetched, [/chart-data] has made exactly one
    upstream call per variant, in the order of the variant list, and the
    merged records are the records of the variants in that order, one
    after the other. *)
Theorem fetchAll_concatenates (rt : runtime) (E : env)
    (uniq : list string) (combined merged : list SoldRecord) (w w' : world) :
  fetchAll rt E uniq combined w = (Ok merged, w') ->
  exists solds : list (list SoldRecord),
    merged = combined ++ concat solds
    /\ length solds = length uniq
    /\ (forall i kw, uniq !! i = Some kw ->
                     exists sold, solds !! i = Some sold
                                  /\ soldAt rt E (step w + i) kw = Ok sold)
    /\ step w' = (step w + length uniq)%nat
    /\ sameCredential w w'
    /\ cacheStore w' = cacheStore w.
Proof.
  revert combined w. induction uniq as [|k uniq IH]; intros combined w H.
  - cbn in H. injection H as <- <-. exists []. cbn. rewrite app_nil_r, Nat.add_0_r.
    repeat split. intros i kw Hi. discriminate.
  - rewrite fetchAll_cons in H.
    destruct (soldAt rt E (step w) k) as [sold|e0] eqn:Hk; [|discriminate].
    apply IH in H as (solds & -> & Hlen & Hnth & Hstep & [Ht He] & Hc).
    exists (sold :: solds). cbn [concat length]. rewrite <- app_assoc.
    split; [reflexivity|]. split; [lia|]. split; [|split; [|split]].
    + intros [|i] kw Hi; cbn in Hi.
      * injection Hi as <-. exists sold. rewrite Nat.add_0_r. split; [reflexivity | exact Hk].
      * destruct (Hnth i kw Hi) as (s & Hs & Hat). exists s. split; [exact Hs|].
        cbn [tick step] in Hat.
        replace (step w + S i)%nat with (S (step w) + i)%nat by lia. exact Hat.
    + rewrite Hstep. cbn [tick step]. lia.
    + split; [exact Ht | exact He].
    + exact Hc.
Qed.

Lemma fetchAll_concatenates_witness :
  let E := sampleEnv {| itemSummaries := Undefined |}
             (completedWith [soldListing (Val "10") (Val ["2024-01-26T00:00:00.000Z"])]) in
  exists merged w',
    fetchAll sampleRuntime E ["abbey road"; "abbey road lp"] [] initialWorld = (Ok merged, w')
    /\ length merged = 2%nat
    /\ step w' = 2%nat.
Proof.
  cbn zeta.
  destruct (fetchAll sampleRuntime _ ["abbey road"; "abbey road lp"] [] initialWorld)
    as [r w'] eqn:Hrun.
  assert (Hr : exists merged, r = Ok merged /\ length merged = 2%nat).
  { apply (f_equal fst) in Hrun. vm_compute in Hrun. rewrite <- Hrun. eauto. }
  destruct Hr as (merged & -> & Hlen).
  destruct (fetchAll_concatenates _ _ _ _ _ _ _ Hrun) as (_ & _ & _ & _ & Hstep & _).
  exists merged, w'. split; [reflexivity|]. split; [exact Hlen | exact Hstep].
Defined.

(** ** Requests without the required parameter *)

(** X22. A request that lacks its required parameter, or gives it empty, is
    answered 400 before anything else happens: [/price-history] and
    [/chart-data] without [q] and [/lookup] without [code] read no clock,
    call no upstream service and leave the state untouched. *)
Theorem missing_parameter_is_rejected_first (rt : runtime) (E : env)
    (fetch_gtin : nat -> string -> string -> outcome (Http SearchJson))
    (p country limit : option string) (w : world) :
  p = None \/ p = Some "" ->
  price_history rt E p limit w = (Ok (Status400 "Parameter 'q' wajib diisi"), w)
  /\ chart_data rt E p w = (Ok (Status400 "Parameter 'q' wajib diisi"), w)
  /\ lookup_barcode E fetch_gtin p country w
     = (Ok (Status400 "Parameter 'code' wajib diisi"), w).
Proof.
  intros [-> | ->]; repeat split.
Qed.

Lemma missing_parameter_is_rejected_first_witness :
  let E := sampleEnv {| itemSummaries := Undefined |} noCompleted in
  price_history sampleRuntime E None None initialWorld
  = (Ok (Status400 "Parameter 'q' wajib diisi"), initialWorld).
Proof.
  cbn zeta.
  apply (missing_parameter_is_rejected_first sampleRuntime _
           (fun _ _ _ => Throw (FetchFailed "unreachable")) None None None initialWorld).
  left. reflexivity.
Defined.

(** ** Search: paging and ordering *)

Lemma Qc_ltb_of_Z_0 (s : Z) : Num.Qc_ltb (Qc_of_Z s) 0 = (s <? 0)%Z.
Proof.
  unfold Num.Qc_ltb, Qle_bool. change (this 0%Qc) with (0 # 1)%Q. cbn.
  rewrite ?Z.mul_1_r, Z.ltb_antisym, ?Z.mul_1_r. reflexivity.
Qed.

Lemma sliceEnd_of_Z (s : Z) (len : nat) :
  Num.sliceEnd (Num.of_Z s) len =
  if (s <? 0)%Z then Z.to_nat (Z.max (Z.of_nat len + s) 0)
  else Nat.min (Z.to_nat s) len.
Proof.
  unfold Num.sliceEnd, Num.of_Z. rewrite Qc_ltb_of_Z_0.
  change (this (Qc_of_Z s)) with (inject_Z s).
  assert (Hneg : Qfloor (- inject_Z s) = (- s)%Z).
  { rewrite <- inject_Z_opp. apply Qfloor_Z. }
  rewrite Hneg, Qfloor_Z, Z.opp_involutive.
  destruct (s <? 0)%Z eqn:Hs; cbv zeta; rewrite ?Hs; reflexivity.
Qed.

Lemma firstn_skipn_clamped {A} (S N : nat) (xs : list A) :
  firstn (Nat.min (S + N) (length xs) - Nat.min S (length xs))
         (skipn (Nat.min S (length xs)) xs)
  = firstn N (skipn S xs).
Proof.
  destruct (Nat.le_gt_cases (length xs) S) as [Hge|Hlt].
  - rewrite (Nat.min_r S) by exact Hge.
    rewrite !skipn_all2 by lia. rewrite !firstn_nil. reflexivity.
  - rewrite (Nat.min_l S) by lia.
    destruct (Nat.le_gt_cases (S + N) (length xs)) as [Hle|Hgt].
    + rewrite Nat.min_l by exact Hle. f_equal. lia.
    + rewrite Nat.min_r by lia.
      rewrite !firstn_all2; [reflexivity | rewrite length_skipn; lia | rewrite length_skipn; lia].
Qed.

Lemma pageOf_pages {A} (p n : Z) (items : list A) :
  (1 <= p)%Z -> (0 <= n)%Z ->
  pageOf (Num.of_Z p) (Num.of_Z n) items
  = firstn (Z.to_nat n) (skipn (Z.to_nat ((p - 1) * n)) items).
Proof.
  intros Hp Hn. unfold pageOf, slice.
  rewrite of_Z_sub, of_Z_mul, of_Z_add, !sliceEnd_of_Z.
  assert (Hs : (0 <= (p - 1) * n)%Z) by nia.
  destruct ((p - 1) * n <? 0)%Z eqn:H1; [apply Z.ltb_lt in H1; lia|].
  destruct ((p - 1) * n + n <? 0)%Z eqn:H2; [apply Z.ltb_lt in H2; lia|].
  rewrite Z2Nat.inj_add by lia. apply firstn_skipn_clamped.
Qed.

Lemma pageOf_zero {A} (n : Z) (items : list A) :
  (0 <= n)%Z -> pageOf (Num.of_Z 0) (Num.of_Z n) items = [].
Proof.
  intros Hn. unfold pageOf, slice.
  rewrite of_Z_sub, of_Z_mul, of_Z_add, !sliceEnd_of_Z.
  replace ((0 - 1) * n + n)%Z with 0%Z by lia. cbn [Z.ltb Z.compare Z.to_nat Nat.min].
  reflexivity.
Qed.

Section VinylSearchProperties.
Context (rt : runtime) (E : env) (itemCreationDate : RawItem -> field string).

Lemma sort_by_sub_sorted {A} (key : A -> number) (l : list A) :
  Sorted (fun a b => Num.ltb (key b) (key a) = false)
         (sort (fun a b => (key a - key b)%num) l).
Proof.
  eapply Sorted_impl with (P := fun _ => True);
    [| apply Forall_forall; auto | apply sort_sorted].
  - intros a b _ _ H. unfold inOrder in H. rewrite sub_positive in H. exact H.
  - intros a b. rewrite !sub_positive. apply ltb_asym.
Qed.

Lemma sort_by_sub_desc_sorted {A} (key : A -> number) (l : list A) :
  Sorted (fun a b => Num.ltb (key a) (key b) = false)
         (sort (fun a b => (key b - key a)%num) l).
Proof.
  eapply Sorted_impl with (P := fun _ => True);
    [| apply Forall_forall; auto | apply sort_sorted].
  - intros a b _ _ H. unfold inOrder in H. rewrite sub_positive in H. exact H.
  - intros a b. rewrite !sub_positive. apply ltb_asym.
Qed.

Lemma sortItems_perm (sortBy : string) (items : list RawItem) :
  Permutation items (sortItems rt itemCreationDate sortBy items).
Proof.
  unfold sortItems.
  destruct (String.eqb sortBy "price_low");
    destruct (String.eqb sortBy "price_high");
    destruct (String.eqb sortBy "newest");
    repeat (etransitivity; [|apply sort_perm]); reflexivity.
Qed.

(** X23. [sortItems] only reorders: the result is a permutation of the
    filtered items for every value of [sort].  With "price_low" no item is
    followed by a cheaper one, with "price_high" none by a dearer one,
    with "newest" none by a newer one, and any other value keeps the
    upstream order. *)
Theorem sortItems_orders (sortBy : string) (items : list RawItem) :
  Permutation items (sortItems rt itemCreationDate sortBy items)
  /\ Sorted (fun a b => Num.ltb (priceNumber rt (price b)) (priceNumber rt (price a)) = false)
            (sortItems rt itemCreationDate "price_low" items)
  /\ Sorted (fun a b => Num.ltb (priceNumber rt (price a)) (priceNumber rt (price b)) = false)
            (sortItems rt itemCreationDate "price_high" items)
  /\ Sorted (fun a b => Num.ltb (dateValue (creationDate rt itemCreationDate a))
                                (dateValue (creationDate rt itemCreationDate b)) = false)
            (sortItems rt itemCreationDate "newest" items)
  /\ (sortBy <> "price_low" -> sortBy <> "price_high" -> sortBy <> "newest" ->
      sortItems rt itemCreationDate sortBy items = items).
Proof.
  split; [|split; [|split; [|split]]].
  - apply sortItems_perm.
  - unfold sortItems. cbn [String.eqb Ascii.eqb Bool.eqb andb].
    apply (sort_by_sub_sorted (fun a => priceNumber rt (price a))).
  - unfold sortItems. cbn [String.eqb Ascii.eqb Bool.eqb andb].
    apply (sort_by_sub_desc_sorted (fun a => priceNumber rt (price a))).
  - unfold sortItems. cbn [String.eqb Ascii.eqb Bool.eqb andb].
    apply (sort_by_sub_desc_sorted (fun a => dateValue (creationDate rt itemCreationDate a))).
  - intros H1 H2 H3. unfold sortItems.
    apply String.eqb_neq in H1, H2, H3. rewrite H1, H2, H3. reflexivity.
Qed.

End VinylSearchProperties.

Lemma sortItems_orders_witness :
  sortItems sampleRuntime (fun _ => Undefined) "best"
            [itemWith "1" "B LP" "20"; itemWith "2" "A LP" "10"]
  = [itemWith "1" "B LP" "20"; itemWith "2" "A LP" "10"].
Proof.
  apply (sortItems_orders sampleRuntime (fun _ => Undefined) "best"); discriminate.
Defined.

Section VinylSearchPaging.
Context (rt : runtime) (E : env) (itemCreationDate : RawItem -> field string).

(** X24. When the search returns, [/vinyl-search] reports as [total] the
    number of all vinyl items found, whatever page is asked for, and for a
    page number [p >= 1] and a page size [n >= 0] it sends the [n] items
    that follow the first [(p - 1) * n] of the ordered list: at most [n]
    items, none once the pages before already cover the list.  Page 0
    sends no item. *)
Theorem vinyl_search_pages
    (q country page limit sortBy : option string) (w w1 : world) (js : SearchJson) (p n : Z) :
  ebaySearch E (default "" q) (default "US" country) "&limit=200" w = (Ok js, w1) ->
  limitNumber rt page 1 = Num.of_Z p ->
  limitNumber rt limit 20 = Num.of_Z n ->
  (0 <= n)%Z ->
  let items := sortItems rt itemCreationDate (default "best" sortBy)
                         (List.filter isVinyl (or_nil (itemSummaries js))) in
  exists body,
    vinyl_search rt E itemCreationDate q country page limit sortBy w = (Ok (Send body), w1)
    /\ sb_total body = length (List.filter isVinyl (or_nil (itemSummaries js)))
    /\ ((1 <= p)%Z ->
        sb_items body
        = map normalizeVinyl (firstn (Z.to_nat n) (skipn (Z.to_nat ((p - 1) * n)) items))
        /\ (length (sb_items body) <= Z.to_nat n)%nat
        /\ ((Z.of_nat (length items) <= (p - 1) * n)%Z -> sb_items body = []))
    /\ (p = 0%Z -> sb_items body = []).
Proof.
  intros Hsearch Hp Hn Hn0 items.
  unfold vinyl_search, try_catch. cbn zeta. unfold bind at 1. rewrite Hsearch.
  unfold ret. rewrite Hp, Hn. fold items.
  eexists. split; [reflexivity|]. cbn [sb_total sb_items]. split; [|split].
  - unfold items. symmetry. apply Permutation_length. apply sortItems_perm.
  - intros Hp1. rewrite pageOf_pages by assumption. split; [reflexivity|]. split.
    + rewrite length_map, length_firstn. lia.
    + intros Hbig. rewrite skipn_all2 by lia. rewrite firstn_nil. reflexivity.
  - intros ->. rewrite pageOf_zero by assumption. reflexivity.
Qed.

End VinylSearchPaging.

Lemma vinyl_search_pages_witness :
  let js := {| itemSummaries := Val [titled "Abbey Road LP"; titled "Abbey Road poster"] |} in
  exists body,
    vinyl_search sampleRuntime (failingSearchEnv {| itemSummaries := Undefined |})
                 (fun _ => Undefined) (Some "abbey road") None None None None (cachedWorld js)
    = (Ok (Send body), tick (cachedWorld js))
    /\ sb_total body = 1%nat.
Proof.
  cbn zeta.
  destruct (vinyl_search_pages sampleRuntime (failingSearchEnv {| itemSummaries := Undefined |})
              (fun _ => Undefined) (Some "abbey road") None None None None
              (cachedWorld {| itemSummaries := Val [titled "Abbey Road LP"; titled "Abbey Road poster"] |})
              (tick (cachedWorld {| itemSummaries := Val [titled "Abbey Road LP"; titled "Abbey Road poster"] |}))
              {| itemSummaries := Val [titled "Abbey Road LP"; titled "Abbey Road poster"] |}
              1%Z 20%Z)
    as (body & Hrun & Htotal & _).
  - vm_compute. reflexivity.
  - reflexivity.
  - reflexivity.
  - lia.
  - exists body. split; [exact Hrun|]. rewrite Htotal. vm_compute. reflexivity.
Defined.

(** ** Lookup by barcode *)

Section LookupProperties.
Context (E : env) (fetch_gtin : nat -> string -> string -> outcome (Http SearchJson)).

(** X25. [/lookup] with a code, once the token is obtained and the search
    by GTIN has answered with a body: when that body holds a vinyl item
    the reply lists its vinyl items with [fallback: false] and no keyword
    search is made; when it holds none, the reply is built from the
    keyword search of the code with [fallback: true], and a failure of
    that search is answered 500.  The status of the GTIN answer
    ([resp.ok]) plays no part. *)
Theorem lookup_falls_back_to_keyword_search
    (code : string) (country : option string) (w w1 : world)
    (tok : string) (resp : Http SearchJson) (js : SearchJson) :
  truthy code = true ->
  let country' := match country with
                  | Some c => if truthy c then c else "US"
                  | None => "US"
                  end in
  getAccessToken E w = (Ok tok, w1) ->
  fetch_gtin (step w1) (Market.resolveMarketplace country') code = Ok resp ->
  json resp = Ok js ->
  let items := List.filter isVinyl (or_nil (itemSummaries js)) in
  (items <> [] ->
   lookup_barcode E fetch_gtin (Some code) country w
   = (Ok (Send {| lb_code := code; fallback := false;
                  lb_total_items := length items;
                  lb_items := map normalizeVinyl items |}), tick w1))
  /\ (items = [] ->
      forall w2,
        (forall fb, ebaySearch E code country' "&limit=20" (tick w1) = (Ok fb, w2) ->
           let found := List.filter isVinyl (or_nil (itemSummaries fb)) in
           lookup_barcode E fetch_gtin (Some code) country w
           = (Ok (Send {| lb_code := code; fallback := true;
                          lb_total_items := length found;
                          lb_items := map normalizeVinyl found |}), w2))
        /\ (forall e, ebaySearch E code country' "&limit=20" (tick w1) = (Throw e, w2) ->
              lookup_barcode E fetch_gtin (Some code) country w = (Ok (Status500 e), w2))).
Proof.
  intros Hcode country' Htok Hgtin Hjson items.
  assert (Hstart : forall k : SearchJson -> M (reply LookupBody),
             (let! token := getAccessToken E in
              let! resp := await (fun n => fetch_gtin n (Market.resolveMarketplace country') code) in
              let! js := lift (json resp) in k js) w
             = k js (tick w1)).
  { intros k. unfold bind at 1. rewrite Htok.
    unfold bind at 1. unfold await at 1. rewrite Hgtin.
    unfold bind at 1. unfold lift at 1. rewrite Hjson. reflexivity. }
  unfold lookup_barcode, try_catch. fold country'. rewrite Hcode.
  rewrite Hstart. fold items.
  split.
  - intros Hne. destruct items as [|i rest]; [contradiction|]. reflexivity.
  - intros Hnil w2. rewrite Hnil. cbn [length Nat.eqb]. split.
    + intros fb Hfb. cbn zeta. unfold bind at 1. rewrite Hfb. reflexivity.
    + intros e He. unfold bind at 1. rewrite He. reflexivity.
Qed.

End LookupProperties.

Lemma lookup_falls_back_to_keyword_search_witness :
  let E := sampleEnv {| itemSummaries := Val [titled "Abbey Road LP"] |} noCompleted in
  let gtin := fun (_ : nat) (_ _ : string) =>
                Ok {| ok := false;
                      json := Ok {| itemSummaries :=
                                      Val [titled "Abbey Road Vinyl"; titled "Abbey Road poster"] |} |} in
  lookup_barcode E gtin (Some "0094638246817") None initialWorld
  = (Ok (Send {| lb_code := "0094638246817"; fallback := false;
                 lb_total_items := 1;
                 lb_items := [normalizeVinyl (titled "Abbey Road Vinyl")] |}),
     tick (snd (getAccessToken E initialWorld))).
Proof.
  cbn zeta.
  pose proof (lookup_falls_back_to_keyword_search
                (sampleEnv {| itemSummaries := Val [titled "Abbey Road LP"] |} noCompleted)
                (fun _ _ _ =>
                   Ok {| ok := false;
                         json := Ok {| itemSummaries :=
                                         Val [titled "Abbey Road Vinyl"; titled "Abbey Road poster"] |} |})
                "0094638246817" None initialWorld
                (snd (getAccessToken
                        (sampleEnv {| itemSummaries := Val [titled "Abbey Road LP"] |} noCompleted)
                        initialWorld))
                "token"
                {| ok := false;
                   json := Ok {| itemSummaries :=
                                   Val [titled "Abbey Road Vinyl"; titled "Abbey Road poster"] |} |}
                {| itemSummaries := Val [titled "Abbey Road Vinyl"; titled "Abbey Road poster"] |}
                eq_refl) as H.
  cbn zeta in H.
  destruct H as [Hhit _].
  - vm_compute. reflexivity.
  - reflexivity.
  - reflexivity.
  - rewrite Hhit.
    + vm_compute. reflexivity.
    + vm_compute. discriminate.
Defined.
